(** * ghforeach: the repository executor, its filters and its worker pool

    A shallow embedding of [internal/ghforeach]: the option-function
    builder [NewRepositoryExecutor], the repository matcher [matchRepo],
    the owner selection of [getRepositories], the command-line front end
    [RunWithArgs], and the clone-and-execute stage of
    [RepositoryExecutor.Go] as an interleaving transition system over
    goroutines. *)

From stdpp Require Import base gmap strings list.
From Stdlib Require Import ZArith Lia Ascii.

Local Open Scope string_scope.
Local Open Scope Z_scope.
Local Open Scope list_scope.

(** ** Collaborators outside the repository *)

(** A Go [error] value is represented by its message; [option error] is an
    [error] that may be [nil]. *)
Definition error := string.

(** The pure functions of Go's standard library the program calls:
    compiled expressions with [regexp.Compile] and [Regexp.MatchString],
    and [path.Join] of a directory and a name. *)
Class GoLib := {
  Regexp : Type;
  Compile : string -> error + Regexp;
  MatchString : Regexp -> string -> bool;
  pathJoin : string -> string -> string
}.

(** [*github.Client]: all the program ever configures is the bearer token
    ([github.NewClient(nil)] has none, [WithAuthToken] attaches one). *)
Record Client := { clientToken : option string }.

Definition NewClient : Client := {| clientToken := None |}.
Definition WithAuthToken (c : Client) (token : string) : Client :=
  {| clientToken := Some token |}.

(** [*zap.Logger]: the process-wide one ([zap.L()]) or one built by
    [zap.NewDevelopment] / [zap.NewProduction]. *)
Inductive Logger := GlobalLogger | DevelopmentLogger | ProductionLogger.

(** [http.BasicAuth] of go-git. *)
Record BasicAuth := { Username : string; Password : string }.

(** [github.Repository], restricted to the fields the program reads.
    [Name] and [CloneURL] are pointers in Go. *)
Record Repository := {
  Name : option string;
  CloneURL : option string;
  Topics : list string
}.

Definition GetName (repo : Repository) : string := default "" (Name repo).
Definition GetCloneURL (repo : Repository) : string := default "" (CloneURL repo).

(** ** The executor and its options *)

Record executionResult := {
  Path : string;
  Command : string;
  Stdout : string;
  Stderr : string;
  Error : option error
}.

Definition RepositoryExecutorOutputFormat := Z.
Definition ConsoleOutputFormat : RepositoryExecutorOutputFormat := 0.
Definition JsonOutputFormat : RepositoryExecutorOutputFormat := 1.

Section Executor.
Context {lib : GoLib}.

(** A [nil] pointer, [nil] map or [nil] regexp is [None]. *)
Record RepositoryExecutor := {
  client : Client;
  logger : Logger;
  authUser : option string;
  authToken : option string;
  nameRegexp : option Regexp;
  nameSet : option (gset string);
  topicRegexp : option Regexp;
  topicSet : option (gset string);
  shellPath : string;
  overwrite : bool;
  cleanup : bool;
  tmpDir : string;
  concurrency : Z;
  outputFormat : RepositoryExecutorOutputFormat;
  org : option string;
  user : option string
}.

(** Field assignments [fre.f = v]. *)
Definition set_client (v : Client) (fre : RepositoryExecutor) : RepositoryExecutor :=
  {| client := v; logger := logger fre; authUser := authUser fre;
     authToken := authToken fre; nameRegexp := nameRegexp fre;
     nameSet := nameSet fre; topicRegexp := topicRegexp fre;
     topicSet := topicSet fre; shellPath := shellPath fre;
     overwrite := overwrite fre; cleanup := cleanup fre;
     tmpDir := tmpDir fre; concurrency := concurrency fre;
     outputFormat := outputFormat fre; org := org fre; user := user fre |}.

Definition set_logger (v : Logger) (fre : RepositoryExecutor) : RepositoryExecutor :=
  {| client := client fre; logger := v; authUser := authUser fre;
     authToken := authToken fre; nameRegexp := nameRegexp fre;
     nameSet := nameSet fre; topicRegexp := topicRegexp fre;
     topicSet := topicSet fre; shellPath := shellPath fre;
     overwrite := overwrite fre; cleanup := cleanup fre;
     tmpDir := tmpDir fre; concurrency := concurrency fre;
     outputFormat := outputFormat fre; org := org fre; user := user fre |}.

Definition set_authUser (v : option string) (fre : RepositoryExecutor) : RepositoryExecutor :=
  {| client := client fre; logger := logger fre; authUser := v;
     authToken := authToken fre; nameRegexp := nameRegexp fre;
     nameSet := nameSet fre; topicRegexp := topicRegexp fre;
     topicSet := topicSet fre; shellPath := shellPath fre;
     overwrite := overwrite fre; cleanup := cleanup fre;
     tmpDir := tmpDir fre; concurrency := concurrency fre;
     outputFormat := outputFormat fre; org := org fre; user := user fre |}.

Definition set_authToken (v : option string) (fre : RepositoryExecutor) : RepositoryExecutor :=
  {| client := client fre; logger := logger fre; authUser := authUser fre;
     authToken := v; nameRegexp := nameRegexp fre; nameSet := nameSet fre;
     topicRegexp := topicRegexp fre; topicSet := topicSet fre;
     shellPath := shellPath fre; overwrite := overwrite fre;
     cleanup := cleanup fre; tmpDir := tmpDir fre;
     concurrency := concurrency fre; outputFormat := outputFormat fre;
     org := org fre; user := user fre |}.

Definition set_nameRegexp (v : option Regexp) (fre : RepositoryExecutor) : RepositoryExecutor :=
  {| client := client fre; logger := logger fre; authUser := authUser fre;
     authToken := authToken fre; nameRegexp := v; nameSet := nameSet fre;
     topicRegexp := topicRegexp fre; topicSet := topicSet fre;
     shellPath := shellPath fre; overwrite := overwrite fre;
     cleanup := cleanup fre; tmpDir := tmpDir fre;
     concurrency := concurrency fre; outputFormat := outputFormat fre;
     org := org fre; user := user fre |}.

Definition set_nameSet (v : option (gset string)) (fre : RepositoryExecutor) : RepositoryExecutor :=
  {| client := client fre; logger := logger fre; authUser := authUser fre;
     authToken := authToken fre; nameRegexp := nameRegexp fre; nameSet := v;
     topicRegexp := topicRegexp fre; topicSet := topicSet fre;
     shellPath := shellPath fre; overwrite := overwrite fre;
     cleanup := cleanup fre; tmpDir := tmpDir fre;
     concurrency := concurrency fre; outputFormat := outputFormat fre;
     org := org fre; user := user fre |}.

Definition set_topicRegexp (v : option Regexp) (fre : RepositoryExecutor) : RepositoryExecutor :=
  {| client := client fre; logger := logger fre; authUser := authUser fre;
     authToken := authToken fre; nameRegexp := nameRegexp fre;
     nameSet := nameSet fre; topicRegexp := v; topicSet := topicSet fre;
     shellPath := shellPath fre; overwrite := overwrite fre;
     cleanup := cleanup fre; tmpDir := tmpDir fre;
     concurrency := concurrency fre; outputFormat := outputFormat fre;
     org := org fre; user := user fre |}.

Definition set_topicSet (v : option (gset string)) (fre : RepositoryExecutor) : RepositoryExecutor :=
  {| client := client fre; logger := logger fre; authUser := authUser fre;
     authToken := authToken fre; nameRegexp := nameRegexp fre;
     nameSet := nameSet fre; topicRegexp := topicRegexp fre; topicSet := v;
     shellPath := shellPath fre; overwrite := overwrite fre;
     cleanup := cleanup fre; tmpDir := tmpDir fre;
     concurrency := concurrency fre; outputFormat := outputFormat fre;
     org := org fre; user := user fre |}.

Definition set_shellPath (v : string) (fre : RepositoryExecutor) : RepositoryExecutor :=
  {| client := client fre; logger := logger fre; authUser := authUser fre;
     authToken := authToken fre; nameRegexp := nameRegexp fre;
     nameSet := nameSet fre; topicRegexp := topicRegexp fre;
     topicSet := topicSet fre; shellPath := v; overwrite := overwrite fre;
     cleanup := cleanup fre; tmpDir := tmpDir fre;
     concurrency := concurrency fre; outputFormat := outputFormat fre;
     org := org fre; user := user fre |}.

Definition set_overwrite (v : bool) (fre : RepositoryExecutor) : RepositoryExecutor :=
  {| client := client fre; logger := logger fre; authUser := authUser fre;
     authToken := authToken fre; nameRegexp := nameRegexp fre;
     nameSet := nameSet fre; topicRegexp := topicRegexp fre;
     topicSet := topicSet fre; shellPath := shellPath fre; overwrite := v;
     cleanup := cleanup fre; tmpDir := tmpDir fre;
     concurrency := concurrency fre; outputFormat := outputFormat fre;
     org := org fre; user := user fre |}.

Definition set_cleanup (v : bool) (fre : RepositoryExecutor) : RepositoryExecutor :=
  {| client := client fre; logger := logger fre; authUser := authUser fre;
     authToken := authToken fre; nameRegexp := nameRegexp fre;
     nameSet := nameSet fre; topicRegexp := topicRegexp fre;
     topicSet := topicSet fre; shellPath := shellPath fre;
     overwrite := overwrite fre; cleanup := v; tmpDir := tmpDir fre;
     concurrency := concurrency fre; outputFormat := outputFormat fre;
     org := org fre; user := user fre |}.

Definition set_tmpDir (v : string) (fre : RepositoryExecutor) : RepositoryExecutor :=
  {| client := client fre; logger := logger fre; authUser := authUser fre;
     authToken := authToken fre; nameRegexp := nameRegexp fre;
     nameSet := nameSet fre; topicRegexp := topicRegexp fre;
     topicSet := topicSet fre; shellPath := shellPath fre;
     overwrite := overwrite fre; cleanup := cleanup fre; tmpDir := v;
     concurrency := concurrency fre; outputFormat := outputFormat fre;
     org := org fre; user := user fre |}.

Definition set_concurrency (v : Z) (fre : RepositoryExecutor) : RepositoryExecutor :=
  {| client := client fre; logger := logger fre; authUser := authUser fre;
     authToken := authToken fre; nameRegexp := nameRegexp fre;
     nameSet := nameSet fre; topicRegexp := topicRegexp fre;
     topicSet := topicSet fre; shellPath := shellPath fre;
     overwrite := overwrite fre; cleanup := cleanup fre;
     tmpDir := tmpDir fre; concurrency := v;
     outputFormat := outputFormat fre; org := org fre; user := user fre |}.

Definition set_outputFormat (v : RepositoryExecutorOutputFormat) (fre : RepositoryExecutor) : RepositoryExecutor :=
  {| client := client fre; logger := logger fre; authUser := authUser fre;
     authToken := authToken fre; nameRegexp := nameRegexp fre;
     nameSet := nameSet fre; topicRegexp := topicRegexp fre;
     topicSet := topicSet fre; shellPath := shellPath fre;
     overwrite := overwrite fre; cleanup := cleanup fre;
     tmpDir := tmpDir fre; concurrency := concurrency fre; outputFormat := v;
     org := org fre; user := user fre |}.

Definition set_org (v : option string) (fre : RepositoryExecutor) : RepositoryExecutor :=
  {| client := client fre; logger := logger fre; authUser := authUser fre;
     authToken := authToken fre; nameRegexp := nameRegexp fre;
     nameSet := nameSet fre; topicRegexp := topicRegexp fre;
     topicSet := topicSet fre; shellPath := shellPath fre;
     overwrite := overwrite fre; cleanup := cleanup fre;
     tmpDir := tmpDir fre; concurrency := concurrency fre;
     outputFormat := outputFormat fre; org := v; user := user fre |}.

Definition set_user (v : option string) (fre : RepositoryExecutor) : RepositoryExecutor :=
  {| client := client fre; logger := logger fre; authUser := authUser fre;
     authToken := authToken fre; nameRegexp := nameRegexp fre;
     nameSet := nameSet fre; topicRegexp := topicRegexp fre;
     topicSet := topicSet fre; shellPath := shellPath fre;
     overwrite := overwrite fre; cleanup := cleanup fre;
     tmpDir := tmpDir fre; concurrency := concurrency fre;
     outputFormat := outputFormat fre; org := org fre; user := v |}.

(** An option mutates the executor it is given and returns an [error]. *)
Definition RepositoryExecutorOption : Type :=
  RepositoryExecutor -> RepositoryExecutor * option error.

Definition WithOrg (o : string) : RepositoryExecutorOption :=
  fun fre => (set_org (Some o) fre, None).

Definition WithUser (u : string) : RepositoryExecutorOption :=
  fun fre => (set_user (Some u) fre, None).

Definition WithNameRegexp (exp : string) : RepositoryExecutorOption :=
  fun fre =>
    match Compile exp with
    | inl err => (fre, Some err)
    | inr r => (set_nameRegexp (Some r) fre, None)
    end.

Definition WithNameList (names : list string) : RepositoryExecutorOption :=
  fun fre => (set_nameSet (Some (list_to_set names)) fre, None).

Definition WithTopicRegexp (exp : string) : RepositoryExecutorOption :=
  fun fre =>
    match Compile exp with
    | inl err => (fre, Some err)
    | inr r => (set_topicRegexp (Some r) fre, None)
    end.

Definition WithTopicList (topics : list string) : RepositoryExecutorOption :=
  fun fre => (set_topicSet (Some (list_to_set topics)) fre, None).

Definition WithClient (c : Client) : RepositoryExecutorOption :=
  fun fre => (set_client c fre, None).

Definition WithLogger (l : Logger) : RepositoryExecutorOption :=
  fun fre => (set_logger l fre, None).

Definition WithUserAuth (u token : string) : RepositoryExecutorOption :=
  fun fre => (set_authToken (Some token) (set_authUser (Some u) fre), None).

Definition WithOverwrite (b : bool) : RepositoryExecutorOption :=
  fun fre => (set_overwrite b fre, None).

Definition WithCleanup (b : bool) : RepositoryExecutorOption :=
  fun fre => (set_cleanup b fre, None).

Definition WithTmpDir (dir : string) : RepositoryExecutorOption :=
  fun fre => (set_tmpDir dir fre, None).

Definition WithConcurrency (n : Z) : RepositoryExecutorOption :=
  fun fre => (set_concurrency n fre, None).

Definition WithOutputFormat (format : RepositoryExecutorOutputFormat)
  : RepositoryExecutorOption :=
  fun fre => (set_outputFormat format fre, None).

Definition WithShellPath (p : string) : RepositoryExecutorOption :=
  fun fre => (set_shellPath p fre, None).

(** The [for _, opt := range opts] loop of [NewRepositoryExecutor]: the
    executor as mutated so far, and the error that stopped the loop. *)
Fixpoint applyOptions (opts : list RepositoryExecutorOption)
  (exec : RepositoryExecutor) : RepositoryExecutor * option error :=
  match opts with
  | [] => (exec, None)
  | opt :: rest =>
      match opt exec with
      | (exec', Some err) => (exec', Some err)
      | (exec', None) => applyOptions rest exec'
      end
  end.

Definition defaultExecutor (wd : string) : RepositoryExecutor :=
  {| client := NewClient; logger := GlobalLogger;
     authUser := None; authToken := None;
     nameRegexp := None; nameSet := None; topicRegexp := None; topicSet := None;
     shellPath := "/bin/sh"; overwrite := false; cleanup := false;
     tmpDir := pathJoin wd "tmp"; concurrency := 1;
     outputFormat := ConsoleOutputFormat; org := None; user := None |}.

(** [NewRepositoryExecutor(opts...)], given the outcome of [os.Getwd()].
    The result is Go's pair of a pointer to the executor and an [error]. *)
Definition NewRepositoryExecutor (getwd : error + string)
  (opts : list RepositoryExecutorOption)
  : option RepositoryExecutor * option error :=
  match getwd with
  | inl err => (None, Some err)
  | inr wd =>
      match applyOptions opts (defaultExecutor wd) with
      | (_, Some err) => (None, Some err)
      | (exec, None) => (Some exec, None)
      end
  end.

(** ** Repository Matcher *)

(** The loops [for _, topic := range repo.Topics] of [matchRepo]: [pass]
    starts [false] and the first topic that satisfies [p] sets it and
    breaks. *)
Fixpoint anyTopic (p : string -> bool) (topics : list string) : bool :=
  match topics with
  | [] => false
  | topic :: rest => if p topic then true else anyTopic p rest
  end.

Definition matchRepo (rh : RepositoryExecutor) (repo : Repository) : bool :=
  if match nameRegexp rh with
     | Some r => negb (MatchString r (GetName repo))
     | None => false
     end
  then false
  else if match nameSet rh with
          | Some s => negb (bool_decide (GetName repo ∈ s))
          | None => false
          end
  then false
  else if match topicRegexp rh with
          | Some r => negb (anyTopic (MatchString r) (Topics repo))
          | None => false
          end
  then false
  else if match topicSet rh with
          | Some s => negb (anyTopic (fun topic => bool_decide (topic ∈ s)) (Topics repo))
          | None => false
          end
  then false
  else true.

(** ** Repository Discoverer: owner selection *)

(** Which listing loop [getRepositories] hands the channel to. *)
Inductive Listing :=
| ForOrg (o : string)            (* getRepositoriesForOrg(ctx, *rh.org, ch) *)
| ForAuthenticatedUser           (* getRepositoriesForAuthenticatedUser(ctx, ch) *)
| ForUser (u : string).          (* getRepositoriesForUser(ctx, *rh.user, ch) *)

Definition getRepositories (rh : RepositoryExecutor) : error + Listing :=
  match org rh with
  | Some o => inr (ForOrg o)
  | None =>
      if match authUser rh, authToken rh, user rh with
         | Some a, Some _, Some u => bool_decide (a = u)
         | _, _, _ => false
         end
      then inr ForAuthenticatedUser
      else match user rh with
           | Some u => inr (ForUser u)
           | None => inl "no user or org specified"
           end
  end.

(** The [auth] value [cloneRepo] passes to go-git. *)
Definition cloneAuth (rh : RepositoryExecutor) : option BasicAuth :=
  match authUser rh, authToken rh with
  | Some u, Some token => Some {| Username := u; Password := token |}
  | _, _ => None
  end.

End Executor.

Arguments RepositoryExecutor {lib}.
Arguments RepositoryExecutorOption {lib}.

(** ** The operating system, go-git and os/exec

    The file system and the network are one opaque [World]; every call that
    touches them takes the world it runs in and returns the world it
    leaves. *)
Class OS := {
  World : Type;
  (** [_, err := os.Stat(p); errors.Is(err, os.ErrNotExist)] *)
  StatIsNotExist : World -> string -> bool;
  (** [git.PlainCloneContext(ctx, dest, false, &git.CloneOptions{URL, Auth})] *)
  PlainCloneContext :
    World -> string -> string -> option BasicAuth -> World * option error;
  (** [exec.Command(name, args...)] with [Dir], [Stdout] and [Stderr] set,
      then [Run()]: what was written to the two writers, and the error. *)
  CommandRun :
    World -> string -> list string -> string ->
    World * (string * string * option error);
  (** [os.RemoveAll(p)], its error dropped as the closures drop it. *)
  RemoveAll : World -> string -> World
}.

(** ** Work Coordinator: the second goroutine of [Go]

    The stage is a transition system. Its moves are one iteration of the
    dispatch loop and one statement of one closure, and a schedule is any
    interleaving of them. A closure works on the repository of the loop
    iteration that started it (the per-iteration loop variable of Go
    1.22). A clone or a command is in flight from the step that enters it
    to the step that leaves it, and acts on the world as it leaves. *)

(** Where a closure handed to [repoG.Go] stands. The two last phases are
    its two [return nil] statements. *)
Inductive Phase :=
| Started                            (* about to os.Stat(repoDir) *)
| Cloning                            (* inside rh.cloneRepo *)
| Executing                          (* inside rh.execCommand *)
| Sending (r : executionResult)      (* blocked on resultCh <- r *)
| CloneFailed (err : error)          (* returned after the clone error *)
| Finished (r : executionResult).    (* returned after the send *)

Record Goroutine := { repo : Repository; phase : Phase }.

(** Calls and log lines the stage leaves behind; [g] numbers the closures
    in dispatch order. *)
Inductive Event :=
| CloneCall (g : nat) (dest url : string) (auth : option BasicAuth)
| LogError (msg : string) (err : error).

(** What a closure returns to its errgroup, once it has returned. *)
Definition closureReturn (p : Phase) : option (option error) :=
  match p with
  | CloneFailed _ => Some None
  | Finished _ => Some None
  | _ => None
  end.

Definition returned (p : Phase) : bool := bool_decide (is_Some (closureReturn p)).

(** A clone or a command is running. *)
Definition inFlight (p : Phase) : bool :=
  match p with
  | Cloning | Executing => true
  | _ => false
  end.

Section Coordinator.
Context {lib : GoLib} {os : OS}.
Variable rh : RepositoryExecutor.
Variable command : string.

Definition cloneRepo (w : World) (dest : string) (r : Repository)
  : World * option error :=
  PlainCloneContext w dest (GetCloneURL r) (cloneAuth rh).

Definition execCommand (w : World) (cmd dir : string)
  : World * (string * string * option error) :=
  CommandRun w (shellPath rh) ["-c"; cmd] dir.

(** [repoCh]: the repositories discovery has still to send; [ctxDone]:
    whether [ctx] is cancelled; [groupErr]: the first non-nil error a
    closure returned, which is what [repoG.Wait()] returns; [results]: the
    values sent over [resultCh] so far, in arrival order. *)
Record State := {
  world : World;
  repoCh : list Repository;
  ctxDone : bool;
  groupErr : option error;
  goroutines : list Goroutine;
  results : list executionResult;
  trace : list Event
}.

Definition initial (w : World) (repos : list Repository) : State :=
  {| world := w; repoCh := repos; ctxDone := false; groupErr := None;
     goroutines := []; results := []; trace := [] |}.

Definition active (s : State) : nat :=
  length (filter (fun g => returned (phase g) = false) (goroutines s)).

Definition running (s : State) : nat :=
  length (filter (fun g => inFlight (phase g) = true) (goroutines s)).

(** [repoG.SetLimit(rh.concurrency)], by the contract of
    [golang.org/x/sync/errgroup]: [repoG.Go] blocks until fewer closures
    than the limit are active, a closure being active until it returns; a
    negative limit is no limit. *)
Definition slotFree (s : State) : bool :=
  (concurrency rh <? 0) || (Z.of_nat (active s) <? concurrency rh).

(** errgroup keeps the first non-nil error returned by a closure. *)
Definition recordReturn (p : Phase) (e : option error) : option error :=
  match e, closureReturn p with
  | None, Some (Some err) => Some err
  | _, _ => e
  end.

(** One iteration of [for repo := range repoCh]: with [ctx] done the
    repository is logged away, otherwise a closure is started for it. *)
Definition dispatch (s : State) : option State :=
  match repoCh s with
  | [] => None
  | r :: rest =>
      if ctxDone s then
        Some {| world := world s; repoCh := rest; ctxDone := ctxDone s;
                groupErr := groupErr s; goroutines := goroutines s;
                results := results s;
                trace := trace s ++ [LogError "context error" "context canceled"] |}
      else if slotFree s then
        Some {| world := world s; repoCh := rest; ctxDone := ctxDone s;
                groupErr := groupErr s;
                goroutines := goroutines s ++ [{| repo := r; phase := Started |}];
                results := results s; trace := trace s |}
      else None
  end.

(** The next statement of closure [g], which is in phase [p] on
    repository [r]: the world, the results and the new events it leaves,
    and the phase it moves to. *)
Definition closureStep (g : nat) (r : Repository) (p : Phase) (w : World)
  : option (World * Phase * list executionResult * list Event) :=
  let repoDir := pathJoin (tmpDir rh) (GetName r) in
  match p with
  | Started =>
      if StatIsNotExist w repoDir
      then Some (w, Cloning, [],
                 [CloneCall g repoDir (GetCloneURL r) (cloneAuth rh)])
      else Some (w, Executing, [], [])
  | Cloning =>
      match cloneRepo w repoDir r with
      | (w', Some err) =>
          Some (w', CloneFailed err, [], [LogError "error cloning repository" err])
      | (w', None) => Some (w', Executing, [], [])
      end
  | Executing =>
      match execCommand w command repoDir with
      | (w', (out, errout, err)) =>
          Some (w',
                Sending {| Path := repoDir; Command := command; Stdout := out;
                           Stderr := errout; Error := err |},
                [],
                match err with
                | Some e => [LogError "error executing command" e]
                | None => []
                end)
      end
  | Sending res =>
      Some (if cleanup rh then RemoveAll w repoDir else w, Finished res, [res], [])
  | CloneFailed _ | Finished _ => None
  end.

Definition advance (g : nat) (s : State) : option State :=
  match goroutines s !! g with
  | None => None
  | Some gr =>
      match closureStep g (repo gr) (phase gr) (world s) with
      | None => None
      | Some (w', p', out, evs) =>
          Some {| world := w'; repoCh := repoCh s; ctxDone := ctxDone s;
                  groupErr := recordReturn p' (groupErr s);
                  goroutines := <[g := {| repo := repo gr; phase := p' |}]> (goroutines s);
                  results := results s ++ out;
                  trace := trace s ++ evs |}
      end
  end.

(** [ctx] is cancelled from outside the stage (a failed discovery). *)
Definition cancel (s : State) : State :=
  {| world := world s; repoCh := repoCh s; ctxDone := true;
     groupErr := groupErr s; goroutines := goroutines s;
     results := results s; trace := trace s |}.

Inductive Action := Dispatch | Advance (g : nat) | Cancel.

Definition step (a : Action) (s : State) : option State :=
  match a with
  | Dispatch => dispatch s
  | Advance g => advance g s
  | Cancel => Some (cancel s)
  end.

(** A schedule is the order in which the scheduler lets the dispatch loop
    and the closures move. *)
Fixpoint run (schedule : list Action) (s : State) : option State :=
  match schedule with
  | [] => Some s
  | a :: rest =>
      match step a s with
      | Some s' => run rest s'
      | None => None
      end
  end.

(** The loop has drained the channel and every closure has returned:
    [repoG.Wait()] returns and [resultCh] is closed. *)
Definition finished (s : State) : Prop :=
  repoCh s = [] ∧ Forall (fun g => returned (phase g) = true) (goroutines s).

(** The result a closure has sent. *)
Definition sent (g : Goroutine) : option executionResult :=
  match phase g with
  | Finished r => Some r
  | _ => None
  end.

Definition cloneFailed (g : Goroutine) : bool :=
  match phase g with
  | CloneFailed _ => true
  | _ => false
  end.

(** The clone calls closure [g] has issued. *)
Definition isCloneCallOf (g : nat) (e : Event) : bool :=
  match e with
  | CloneCall g' _ _ _ => bool_decide (g' = g)
  | LogError _ _ => false
  end.

Definition cloneCallsOf (g : nat) (t : list Event) : nat :=
  length (filter (fun e => isCloneCallOf g e = true) t).

(** The clone calls into directory [dest]. *)
Definition isCloneCallTo (dest : string) (e : Event) : bool :=
  match e with
  | CloneCall _ d _ _ => bool_decide (d = dest)
  | LogError _ _ => false
  end.

Definition cloneCallsTo (dest : string) (t : list Event) : nat :=
  length (filter (fun e => isCloneCallTo dest e = true) t).

(** The closure has looked at its directory. *)
Definition pastStat (p : Phase) : bool :=
  match p with
  | Started => false
  | _ => true
  end.

End Coordinator.

Arguments State {os}.
Arguments initial {os} w repos.
Arguments cancel {os} s.
Arguments finished {os} s.
Arguments active {os} s.
Arguments running {os} s.

(** ** Command-line front end *)

Module Args.
Record t := {
  Command : string;
  AuthUser : option string;
  AuthToken : option string;
  Org : option string;
  User : option string;
  NameExp : option string;
  NameList : option string;
  TopicExp : option string;
  TopicList : option string;
  Shell : string;
  TmpDir : string;
  Cleanup : bool;
  Overwrite : bool;
  NThreads : Z;
  Json : bool;
  Debug : bool
}.
End Args.

(** What [RunWithArgs] asks of the process before the pipeline starts:
    [os.Getwd], [os.ReadFile] and the two zap constructors. *)
Record Env := {
  Getwd : error + string;
  ReadFile : string -> error + string;
  NewDevelopment : option error;
  NewProduction : option error
}.

(** [strings.Split(s, "\n")]. *)
Fixpoint splitLines (s : string) : list string :=
  match s with
  | EmptyString => [""]
  | String c rest =>
      if bool_decide (c = "010"%char) then "" :: splitLines rest
      else match splitLines rest with
           | line :: lines => String c line :: lines
           | [] => [String c ""]
           end
  end.

Section FrontEnd.
Context {lib : GoLib}.

(** [if p != nil] then [opts = append(opts, f(p))], [p] dereferenced. *)
Definition appendIf {A : Type} (p : option A) (f : A -> RepositoryExecutorOption)
  (opts : list RepositoryExecutorOption) : list RepositoryExecutorOption :=
  match p with
  | Some a => opts ++ [f a]
  | None => opts
  end.

(** The same for a list read from a file, where the read may fail. *)
Definition appendFile (env : Env) (p : option string)
  (f : list string -> RepositoryExecutorOption)
  (opts : list RepositoryExecutorOption)
  : error + list RepositoryExecutorOption :=
  match p with
  | Some file =>
      match ReadFile env file with
      | inl err => inl err
      | inr bytes => inr (opts ++ [f (splitLines bytes)])
      end
  | None => inr opts
  end.

(** The option list [RunWithArgs] assembles before it calls
    [NewRepositoryExecutor]. *)
Definition buildOptions (env : Env) (logger : Logger) (args : Args.t)
  : error + list RepositoryExecutorOption :=
  let client :=
    match Args.AuthToken args with
    | Some token => WithAuthToken NewClient token
    | None => NewClient
    end in
  let opts :=
    [WithClient client; WithLogger logger; WithCleanup (Args.Cleanup args);
     WithOverwrite (Args.Overwrite args); WithConcurrency (Args.NThreads args);
     WithTmpDir (Args.TmpDir args); WithShellPath (Args.Shell args)] in
  let opts :=
    match Args.AuthUser args, Args.AuthToken args with
    | Some _, Some token => opts ++ [WithUserAuth token token]
    | _, _ => opts
    end in
  let opts := appendIf (Args.Org args) WithOrg opts in
  let opts := appendIf (Args.User args) WithUser opts in
  let opts := appendIf (Args.NameExp args) WithNameRegexp opts in
  let opts := appendIf (Args.TopicExp args) WithTopicRegexp opts in
  match appendFile env (Args.NameList args) WithNameList opts with
  | inl err => inl err
  | inr opts =>
      match appendFile env (Args.TopicList args) WithTopicList opts with
      | inl err => inl err
      | inr opts =>
          inr (if Args.Json args
               then opts ++ [WithOutputFormat JsonOutputFormat]
               else opts)
      end
  end.

(** [RunWithArgs(args)] up to its last statement: [inr (handler, command)]
    stands for the tail call [handler.Go(ctx, command)], the only place
    from which the network is reached; [inl err] is an earlier
    [return err]. *)
Definition RunWithArgs (env : Env) (args : Args.t)
  : error + (RepositoryExecutor * string) :=
  match (if Args.Debug args
         then (NewDevelopment env, DevelopmentLogger)
         else (NewProduction env, ProductionLogger)) with
  | (Some err, _) => inl err
  | (None, logger) =>
      match buildOptions env logger args with
      | inl err => inl err
      | inr opts =>
          match NewRepositoryExecutor (Getwd env) opts with
          | (_, Some err) => inl err
          | (None, None) => inl "invalid memory address or nil pointer dereference"
          | (Some handler, None) =>
              if (String.length (Args.Command args) =? 0)%nat
              then inl "no command provided"
              else inr (handler, Args.Command args)
          end
      end
  end.

End FrontEnd.

(** ** The claims' vocabulary *)

Section Vocabulary.
Context {lib : GoLib}.

(** Each filter of the matcher, read as the specification words it: a
    filter that is absent passes. *)
Definition passesNamePattern (rh : RepositoryExecutor) (r : Repository) : Prop :=
  match nameRegexp rh with
  | Some p => MatchString p (GetName r) = true
  | None => True
  end.

Definition passesNameSet (rh : RepositoryExecutor) (r : Repository) : Prop :=
  match nameSet rh with
  | Some s => GetName r ∈ s
  | None => True
  end.

Definition passesTopicPattern (rh : RepositoryExecutor) (r : Repository) : Prop :=
  match topicRegexp rh with
  | Some p => ∃ topic, topic ∈ Topics r ∧ MatchString p topic = true
  | None => True
  end.

Definition passesTopicSet (rh : RepositoryExecutor) (r : Repository) : Prop :=
  match topicSet rh with
  | Some s => ∃ topic, topic ∈ Topics r ∧ topic ∈ s
  | None => True
  end.

(** Credentials are set and their user is the configured named user. *)
Definition credentialsMatchUser (rh : RepositoryExecutor) : Prop :=
  ∃ u token, authUser rh = Some u ∧ authToken rh = Some token ∧ user rh = Some u.

End Vocabulary.

(** How far a closure has come: it stats, clones if it must, executes,
    sends, and returns. *)
Definition phaseRank (p : Phase) : nat :=
  match p with
  | Started => 0
  | Cloning => 1
  | Executing => 2
  | Sending _ => 3
  | CloneFailed _ | Finished _ => 4
  end.

(** ** Invariants of the stage *)

Section Invariants.
Context {lib : GoLib} {os : OS}.
Variable rh : RepositoryExecutor.

(** A closure that has not been started, or has not yet looked at its
    directory, has issued no clone call. *)
Definition noCloneBeforeStat (s : State) : Prop :=
  ∀ g, match goroutines s !! g with
       | Some gr => phase gr = Started → cloneCallsOf g (trace s) = 0%nat
       | None => cloneCallsOf g (trace s) = 0%nat
       end.

(** Once a closure is past its directory check, its count of clone calls
    is settled. *)
Definition settled (g n : nat) (s : State) : Prop :=
  (∃ gr, goroutines s !! g = Some gr ∧ phase gr ≠ Started) ∧
  cloneCallsOf g (trace s) = n.

(** The closure works in directory [dest] and is past its check. *)
Definition inDirectory (dest : string) (gr : Goroutine) : Prop :=
  pathJoin (tmpDir rh) (GetName (repo gr)) = dest ∧ pastStat (phase gr) = true.

#[global] Instance inDirectory_dec dest gr : Decision (inDirectory dest gr).
Proof. unfold inDirectory. apply _. Defined.

End Invariants.

(** ** A small world to run the definitions in *)

Module Fixture.

(** Whether [p] occurs in [s]. *)
Fixpoint contains (p s : string) : bool :=
  String.prefix p s ||
  match s with
  | EmptyString => false
  | String _ rest => contains p rest
  end.

(** The fragment of Go's regular expressions made of literal characters:
    such a pattern matches the strings that contain it. The pattern [[]
    is the one malformed expression of the fixture. Paths are joined as
    [path.Join] joins a clean directory and a plain name. *)
#[local] Instance literals : GoLib := {|
  Regexp := string;
  Compile exp :=
    if bool_decide (exp = "[")
    then inl "error parsing regexp: missing closing ]: `[`"
    else inr exp;
  MatchString := contains;
  pathJoin dir name := dir +:+ "/" +:+ name
|}.

(** Directories on disk and repositories the remote serves. *)
Record Disk := { dirs : list string; remotes : list string }.

(** A clone succeeds for the URLs the remote serves and creates the
    destination; [pwd] prints the directory, [false] exits with status 1,
    any other command succeeds silently. *)
#[local] Instance disk : OS := {|
  World := Disk;
  StatIsNotExist w p := negb (bool_decide (p ∈ dirs w));
  PlainCloneContext w dest url auth :=
    if bool_decide (url ∈ remotes w)
    then ({| dirs := dest :: dirs w; remotes := remotes w |}, None)
    else (w, Some "repository not found");
  CommandRun w shell args dir :=
    if bool_decide (args = ["-c"; "pwd"]) then (w, (dir +:+ "
", "", None))
    else if bool_decide (args = ["-c"; "false"]) then (w, ("", "", Some "exit status 1"))
    else (w, ("", "", None));
  RemoveAll w p :=
    {| dirs := filter (fun d => d ≠ p) (dirs w); remotes := remotes w |}
|}.

Definition repoNamed (name : string) (topics : list string) : Repository :=
  {| Name := Some name;
     CloneURL := Some ("https://github.com/acme/" +:+ name +:+ ".git");
     Topics := topics |}.

Definition svcA : Repository := repoNamed "svc-a" ["go"; "backend"].
Definition svcB : Repository := repoNamed "svc-b" [].
Definition svcC : Repository := repoNamed "svc-c" ["docs"].

(** The executor of [NewRepositoryExecutor()] run in [/work]. *)
Definition plain : RepositoryExecutor := defaultExecutor "/work".

(** Nothing cloned yet; the remote serves [svc-a] and [svc-c] only. *)
Definition fresh : @World disk :=
  {| dirs := ["/work/tmp"];
     remotes := ["https://github.com/acme/svc-a.git";
                 "https://github.com/acme/svc-c.git"] |}.

(** [svc-a] is already on disk. *)
Definition warm : @World disk :=
  {| dirs := ["/work/tmp/svc-a"; "/work/tmp"];
     remotes := ["https://github.com/acme/svc-a.git";
                 "https://github.com/acme/svc-c.git"] |}.

Definition env : Env :=
  {| Getwd := inr "/work";
     ReadFile file := inl ("open " +:+ file +:+ ": no such file or directory");
     NewDevelopment := None;
     NewProduction := None |}.

Definition args : Args.t :=
  {| Args.Command := "pwd";
     Args.AuthUser := Some "octocat"; Args.AuthToken := Some "ghp_token";
     Args.Org := None; Args.User := Some "octocat";
     Args.NameExp := None; Args.NameList := None;
     Args.TopicExp := None; Args.TopicList := None;
     Args.Shell := "/bin/sh"; Args.TmpDir := "./tmp";
     Args.Cleanup := false; Args.Overwrite := false; Args.NThreads := 1;
     Args.Json := false; Args.Debug := false |}.

(** The same command line with a malformed name pattern. *)
Definition badArgs : Args.t :=
  {| Args.Command := "pwd";
     Args.AuthUser := Some "octocat"; Args.AuthToken := Some "ghp_token";
     Args.Org := None; Args.User := Some "octocat";
     Args.NameExp := Some "["; Args.NameList := None;
     Args.TopicExp := None; Args.TopicList := None;
     Args.Shell := "/bin/sh"; Args.TmpDir := "./tmp";
     Args.Cleanup := false; Args.Overwrite := false; Args.NThreads := 1;
     Args.Json := false; Args.Debug := false |}.

End Fixture.

#[local] Existing Instance Fixture.literals | 100.
#[local] Existing Instance Fixture.disk | 100.

(** * More of the program *)

(** ** Command-line front end, continued *)

(** [strings.Join(lines, "\n")], the inverse [splitLines] is measured
    against. *)
Fixpoint joinLines (lines : list string) : string :=
  match lines with
  | [] => ""
  | [line] => line
  | line :: rest => line +:+ String "010"%char (joinLines rest)
  end.

(** Whether a newline occurs in [s]. *)
Fixpoint hasNewline (s : string) : bool :=
  match s with
  | EmptyString => false
  | String c rest => bool_decide (c = "010"%char) || hasNewline rest
  end.

(** The arguments with another positional command. *)
Definition withCommand (cmd : string) (args : Args.t) : Args.t :=
  {| Args.Command := cmd;
     Args.AuthUser := Args.AuthUser args; Args.AuthToken := Args.AuthToken args;
     Args.Org := Args.Org args; Args.User := Args.User args;
     Args.NameExp := Args.NameExp args; Args.NameList := Args.NameList args;
     Args.TopicExp := Args.TopicExp args; Args.TopicList := Args.TopicList args;
     Args.Shell := Args.Shell args; Args.TmpDir := Args.TmpDir args;
     Args.Cleanup := Args.Cleanup args; Args.Overwrite := Args.Overwrite args;
     Args.NThreads := Args.NThreads args; Args.Json := Args.Json args;
     Args.Debug := Args.Debug args |}.

(** ** Repository Discoverer: the listing loops *)

(** [github.ListOptions], and what the loops read of a listing call's
    result: the repositories of the page and [resp.NextPage]. *)
Record ListOptions := { Page : Z; PerPage : Z }.

Definition PageResult : Type := error + (list Repository * Z).

(** The GitHub API behind [rh.client] together with the context [ctx], as
    one opaque [Remote] that every call may change. [ctxErr] is [ctx.Err()]
    when [ctx.Done()] is ready. *)
Class GitHub := {
  Remote : Type;
  ctxErr : Remote -> option error;
  ListByOrg : Remote -> string -> ListOptions -> Remote * PageResult;
  ListByUser : Remote -> string -> ListOptions -> Remote * PageResult;
  ListByAuthenticatedUser : Remote -> ListOptions -> Remote * PageResult
}.

Section Discoverer.
Context {lib : GoLib} {gh : GitHub}.
Variable rh : RepositoryExecutor.

(** The loop the three listing functions share, [call] being the request
    they differ in. The result is the remote as left, the repositories
    sent over the channel, in order, and the error returned. The loop has
    no bound of its own: [None] is a loop still turning when [fuel] runs
    out. *)
Fixpoint listPages (fuel : nat)
  (call : Remote -> ListOptions -> Remote * PageResult)
  (remote : Remote) (opt : ListOptions)
  : option (Remote * list Repository * option error) :=
  match fuel with
  | O => None
  | S fuel' =>
      match ctxErr remote with
      | Some err => Some (remote, [], Some err)
      | None =>
          match call remote opt with
          | (remote', inl err) => Some (remote', [], Some err)
          | (remote', inr (repos, next)) =>
              let sent := filter (fun r => matchRepo rh r = true) repos in
              if next =? 0 then Some (remote', sent, None)
              else
                match listPages fuel' call remote'
                        {| Page := next; PerPage := PerPage opt |} with
                | Some (remote'', more, err) => Some (remote'', sent ++ more, err)
                | None => None
                end
          end
      end
  end.

Definition firstPage : ListOptions := {| Page := 0; PerPage := 100 |}.

Definition getRepositoriesForOrg (fuel : nat) (remote : Remote) (o : string) :=
  listPages fuel (fun r opt => ListByOrg r o opt) remote firstPage.

Definition getRepositoriesForUser (fuel : nat) (remote : Remote) (u : string) :=
  listPages fuel (fun r opt => ListByUser r u opt) remote firstPage.

Definition getRepositoriesForAuthenticatedUser (fuel : nat) (remote : Remote) :=
  listPages fuel ListByAuthenticatedUser remote firstPage.

(** [getRepositories] with the loop it selects run. *)
Definition discover (fuel : nat) (remote : Remote)
  : option (Remote * list Repository * option error) :=
  match getRepositories rh with
  | inl err => Some (remote, [], Some err)
  | inr (ForOrg o) => getRepositoriesForOrg fuel remote o
  | inr ForAuthenticatedUser => getRepositoriesForAuthenticatedUser fuel remote
  | inr (ForUser u) => getRepositoriesForUser fuel remote u
  end.

End Discoverer.

(** A listing call that serves fixed pages and never fails. Pages are
    numbered from 1, page 0 is page 1, and the last page has no next. *)
Definition pageNumber (p : Z) : nat := Z.to_nat (Z.max 1 p).

Definition servesPages {gh : GitHub}
  (call : Remote -> ListOptions -> Remote * PageResult)
  (pages : list (list Repository)) : Prop :=
  ∀ remote opt,
    call remote opt =
    (remote,
     inr (default [] (pages !! (pageNumber (Page opt) - 1)%nat),
          if (pageNumber (Page opt) <? length pages)%nat
          then Z.of_nat (pageNumber (Page opt)) + 1 else 0)).

(** ** Result Reporter: the third goroutine of [Go] *)

(** [encoding/json]: [json.Marshal] of a result. *)
Class Json := { Marshal : executionResult -> error + string }.

Definition newline : string := String "010"%char "".

(** [er.String()]; [%v] of an error is its message. *)
Definition String_ (er : executionResult) : string :=
  (">>>>> " +:+ Path er +:+ ": " +:+ Command er +:+ newline)
  +:+ ("STDERR:" +:+ newline +:+ Stderr er +:+ newline)
  +:+ ("STDOUT:" +:+ newline +:+ Stdout er +:+ newline)
  +:+ match Error er with
      | Some err => "error: " +:+ err +:+ newline
      | None => ""
      end.

Definition JsonString {js : Json} (er : executionResult) : string * option error :=
  match Marshal er with
  | inl err => ("", Some err)
  | inr str => (str, None)
  end.

(** What the reporter does with one result. *)
Inductive Report :=
| Println (s : string)
| ReportError (msg : string).

Section Reporter.
Context {lib : GoLib} {js : Json}.
Variable rh : RepositoryExecutor.

(** The body of [for result := range resultCh], [ctxIsDone] telling
    whether [ctx.Done()] is ready when the result arrives. *)
Definition report (ctxIsDone : bool) (result : executionResult) : Report :=
  if ctxIsDone then ReportError "context error"
  else if outputFormat rh =? JsonOutputFormat then
    match JsonString result with
    | (_, Some err) => ReportError "error marshalling result to json"
    | (str, None) => Println str
    end
  else if outputFormat rh =? ConsoleOutputFormat then Println (String_ result)
  else ReportError "invalid output format".

(** The loop over the results as they arrive. *)
Definition reporter (arrivals : list (bool * executionResult)) : list Report :=
  (fun a => report a.1 a.2) <$> arrivals.

End Reporter.

Definition printed (r : Report) : bool :=
  match r with
  | Println _ => true
  | ReportError _ => false
  end.

(** ** Work Coordinator, continued: what a run is measured by *)

(** The moves of the dispatch loop and of the closures in a schedule. *)
Definition isDispatch (a : Action) : bool :=
  match a with
  | Dispatch => true
  | _ => false
  end.

Definition dispatches (schedule : list Action) : nat :=
  length (filter (fun a => isDispatch a = true) schedule).

Definition isAdvance (a : Action) : bool :=
  match a with
  | Advance _ => true
  | _ => false
  end.

Definition advances (schedule : list Action) : nat :=
  length (filter (fun a => isAdvance a = true) schedule).

(** The lines logged with message [msg]. *)
Definition isLog (msg : string) (e : Event) : bool :=
  match e with
  | LogError m _ => bool_decide (m = msg)
  | CloneCall _ _ _ _ => false
  end.

Definition logged (msg : string) (t : list Event) : nat :=
  length (filter (fun e => isLog msg e = true) t).

(** The result a closure holds, sent or about to be sent. *)
Definition held (g : Goroutine) : option executionResult :=
  match phase g with
  | Sending r | Finished r => Some r
  | _ => None
  end.

Definition holdsError (g : Goroutine) : bool :=
  match held g with
  | Some r => bool_decide (is_Some (Error r))
  | None => false
  end.

(** The steps a closure has taken at most, summed over the closures. *)
Definition progress (gs : list Goroutine) : nat :=
  sum_list_with (fun g => phaseRank (phase g)) gs.

(** All closures but the one started last have returned. *)
Definition oneAtATime {os : OS} (s : State) : Prop :=
  ∀ i gr, goroutines s !! i = Some gr → (S i < length (goroutines s))%nat →
          returned (phase gr) = true.

(** A held result names the command and the closure's own directory. *)
Definition holdsOwn {lib : GoLib} (rh : RepositoryExecutor) (command : string)
  (gr : Goroutine) : Prop :=
  match held gr with
  | Some r => Command r = command ∧
              Path r = pathJoin (tmpDir rh) (GetName (repo gr))
  | None => True
  end.

(** ** The older revision, [repositoryhandler.go]

    The executor of that file has the same fields but for the shell path,
    which it lacks and which stays unused here. What differs from the
    newer file is embedded again; what is the same (the options, the
    option loop, [matchRepo], [cloneRepo]) is shared. *)

(** [strings.Fields]. *)
Class Strings := { Fields : string -> list string }.

Module Legacy.
Section Legacy.
Context {lib : GoLib} {os : OS} {str : Strings}.

(** No default for the limit: it is Go's zero value. *)
Definition defaultExecutor (wd : string) : RepositoryExecutor :=
  {| client := NewClient; logger := GlobalLogger;
     authUser := None; authToken := None;
     nameRegexp := None; nameSet := None; topicRegexp := None; topicSet := None;
     shellPath := ""; overwrite := false; cleanup := false;
     tmpDir := pathJoin wd "tmp"; concurrency := 0;
     outputFormat := ConsoleOutputFormat; org := None; user := None |}.

Definition NewRepositoryExecutor (getwd : error + string)
  (opts : list RepositoryExecutorOption)
  : option RepositoryExecutor * option error :=
  match getwd with
  | inl err => (None, Some err)
  | inr wd =>
      match applyOptions opts (defaultExecutor wd) with
      | (_, Some err) => (None, Some err)
      | (exec, None) => (Some exec, None)
      end
  end.

Definition getRepositories (rh : RepositoryExecutor) : error + Listing :=
  match org rh with
  | Some o => inr (ForOrg o)
  | None =>
      match authUser rh, authToken rh with
      | Some _, Some _ => inr ForAuthenticatedUser
      | _, _ =>
          match user rh with
          | Some u => inr (ForUser u)
          | None => inl "no user or org specified"
          end
      end
  end.

(** [execCommand]: the command is cut into fields and run without a
    shell. [None] is the panic of [commandSlice[0]] on an empty slice. *)
Definition execCommand (w : World) (command dir : string)
  : option (World * (string * string * option error)) :=
  match Fields command with
  | [] => None
  | name :: args =>
      if (1 <? String.length command)%nat
      then Some (CommandRun w name args dir)
      else Some (CommandRun w name [] dir)
  end.

Variable rh : RepositoryExecutor.
Variable command : string.

(** The closure returns the clone error to its group. *)
Definition closureReturn (p : Phase) : option (option error) :=
  match p with
  | CloneFailed err => Some (Some err)
  | Finished _ => Some None
  | _ => None
  end.

Definition recordReturn (p : Phase) (e : option error) : option error :=
  match e, closureReturn p with
  | None, Some (Some err) => Some err
  | _, _ => e
  end.

(** The next statement of a closure; a panic leaves no next state. The
    first error a closure returns also cancels [repoCtx]; what that does
    to the clones still to come is go-git's business and stays inside
    [PlainCloneContext]. *)
Definition closureStep (g : nat) (r : Repository) (p : Phase) (w : World)
  : option (World * Phase * list executionResult * list Event) :=
  let repoDir := pathJoin (tmpDir rh) (GetName r) in
  match p with
  | Started =>
      if StatIsNotExist w repoDir
      then Some (w, Cloning, [],
                 [CloneCall g repoDir (GetCloneURL r) (cloneAuth rh)])
      else Some (w, Executing, [], [])
  | Cloning =>
      match cloneRepo rh w repoDir r with
      | (w', Some err) => Some (w', CloneFailed err, [], [])
      | (w', None) => Some (w', Executing, [], [])
      end
  | Executing =>
      match execCommand w command repoDir with
      | None => None
      | Some (w', (out, errout, err)) =>
          Some (w',
                Sending {| Path := repoDir; Command := command; Stdout := out;
                           Stderr := errout; Error := err |},
                [], [])
      end
  | Sending res =>
      Some (if cleanup rh then RemoveAll w repoDir else w, Finished res, [res], [])
  | CloneFailed _ | Finished _ => None
  end.

Definition advance (g : nat) (s : State) : option State :=
  match goroutines s !! g with
  | None => None
  | Some gr =>
      match closureStep g (repo gr) (phase gr) (world s) with
      | None => None
      | Some (w', p', out, evs) =>
          Some {| world := w'; repoCh := repoCh s; ctxDone := ctxDone s;
                  groupErr := recordReturn p' (groupErr s);
                  goroutines := <[g := {| repo := repo gr; phase := p' |}]> (goroutines s);
                  results := results s ++ out;
                  trace := trace s ++ evs |}
      end
  end.

(** One iteration of [for repo := range repoCh]: the loop does not look
    at the context. *)
Definition dispatch (s : State) : option State :=
  match repoCh s with
  | [] => None
  | r :: rest =>
      if slotFree rh s then
        Some {| world := world s; repoCh := rest; ctxDone := ctxDone s;
                groupErr := groupErr s;
                goroutines := goroutines s ++ [{| repo := r; phase := Started |}];
                results := results s; trace := trace s |}
      else None
  end.

Definition step (a : Action) (s : State) : option State :=
  match a with
  | Dispatch => dispatch s
  | Advance g => advance g s
  | Cancel => Some (cancel s)
  end.

Fixpoint run (schedule : list Action) (s : State) : option State :=
  match schedule with
  | [] => Some s
  | a :: rest =>
      match step a s with
      | Some s' => run rest s'
      | None => None
      end
  end.

End Legacy.
End Legacy.

(** The older group has an error exactly when some closure ended on a
    failed clone, and the error is that of such a closure. *)
Definition failsWithClone {os : OS} (s : State) : Prop :=
  (groupErr s = None ↔ Forall (λ g, cloneFailed g = false) (goroutines s)) ∧
  ∀ e, groupErr s = Some e →
       ∃ g r, goroutines s !! g = Some {| repo := r; phase := CloneFailed e |}.

(** ** More of the small world *)

Module Sample.

(** The pages the remote serves for the organization [acme]. *)
Definition acmePages : list (list Repository) :=
  [[Fixture.svcA; Fixture.svcB]; [Fixture.svcC]].

(** A remote that knows [acme] only; its state is the error of the
    context, if the context is done. *)
#[local] Instance hub : GitHub := {|
  Remote := option error;
  ctxErr remote := remote;
  ListByOrg remote o opt :=
    if bool_decide (o = "acme")
    then (remote,
          inr (default [] (acmePages !! (pageNumber (Page opt) - 1)%nat),
               if (pageNumber (Page opt) <? length acmePages)%nat
               then Z.of_nat (pageNumber (Page opt)) + 1 else 0))
    else (remote, inl "404 Not Found");
  ListByUser remote u opt := (remote, inl "404 Not Found");
  ListByAuthenticatedUser remote opt := (remote, inl "401 Bad credentials")
|}.

(** The remote with its context not cancelled. *)
Definition live : @Remote hub := None.

(** Results marshal to a line that shows their path. *)
#[local] Instance json : Json := {|
  Marshal er := inr ("{path:" +:+ Path er +:+ "}")
|}.

Definition isSpace (c : ascii) : bool :=
  bool_decide (c = " "%char) || bool_decide (c = "009"%char)
  || bool_decide (c = "010"%char) || bool_decide (c = "011"%char)
  || bool_decide (c = "012"%char) || bool_decide (c = "013"%char).

(** [strings.Fields] on ASCII text. *)
Fixpoint asciiFields (s : string) : list string :=
  match s with
  | EmptyString => []
  | String c rest =>
      if isSpace c then asciiFields rest
      else match rest with
           | EmptyString => [String c ""]
           | String c' _ =>
               if isSpace c' then String c "" :: asciiFields rest
               else match asciiFields rest with
                    | field :: fields => String c field :: fields
                    | [] => [String c ""]
                    end
           end
  end.

#[local] Instance ascii : Strings := {| Fields := asciiFields |}.

(** The process of [Fixture.env] with two list files in place. *)
Definition env : Env :=
  {| Getwd := inr "/work";
     ReadFile file :=
       if bool_decide (file = "names.txt") then inr "svc-a
svc-c
"
       else if bool_decide (file = "topics.txt") then inr "go"
       else inl ("open " +:+ file +:+ ": no such file or directory");
     NewDevelopment := None;
     NewProduction := None |}.

(** An organization and a user, a token without its user, both lists. *)
Definition args : Args.t :=
  {| Args.Command := "pwd";
     Args.AuthUser := None; Args.AuthToken := Some "ghp_token";
     Args.Org := Some "acme"; Args.User := Some "octocat";
     Args.NameExp := None; Args.NameList := Some "names.txt";
     Args.TopicExp := None; Args.TopicList := Some "topics.txt";
     Args.Shell := "/bin/bash"; Args.TmpDir := "/work/tmp";
     Args.Cleanup := true; Args.Overwrite := false; Args.NThreads := 4;
     Args.Json := true; Args.Debug := true |}.

(** The default executor looking for topic [go] in [acme]. *)
Definition goInAcme : RepositoryExecutor :=
  set_org (Some "acme") (set_topicSet (Some {["go"]}) Fixture.plain).

End Sample.

#[local] Existing Instance Sample.hub | 100.
#[local] Existing Instance Sample.json | 100.
#[local] Existing Instance Sample.ascii | 100.


(** * Properties *)

(** ** Repository Matcher *)

Section MatcherFacts.
Context {lib : GoLib}.

Lemma anyTopic_true (p : string -> bool) (topics : list string) :
  anyTopic p topics = true ↔ ∃ topic, topic ∈ topics ∧ p topic = true.
Proof.
  induction topics as [|t rest IH]; simpl.
  - split; [discriminate | intros (x & Hx & _); inversion Hx].
  - destruct (p t) eqn:Hp.
    + split; [intros _; exists t; split; [left | done] | done].
    + rewrite IH. split.
      * intros (x & Hx & Hpx). exists x. split; [by right | done].
      * intros (x & Hx & Hpx). apply elem_of_cons in Hx as [-> | Hx].
        -- congruence.
        -- by exists x.
Qed.

(** C3. [matchRepo] is a total function of the executor's filters and the
    repository, and it answers [true] exactly when every filter that is
    present passes: the name pattern matches the name, the name set holds
    the name, some topic matches the topic pattern, some topic is in the
    topic set. A filter that is absent passes. *)
Theorem matchRepo_true_iff_every_present_filter_passes
  (rh : RepositoryExecutor) (r : Repository) :
  matchRepo rh r = true ↔
  passesNamePattern rh r ∧ passesNameSet rh r ∧
  passesTopicPattern rh r ∧ passesTopicSet rh r.
Proof.
  unfold matchRepo, passesNamePattern, passesNameSet, passesTopicPattern,
    passesTopicSet.
  destruct (nameRegexp rh) as [np|]; [destruct (MatchString np (GetName r)) eqn:Hn|];
    simpl; try (split; [discriminate | intros (? & _); discriminate]).
  all: destruct (nameSet rh) as [ns|];
    [destruct (bool_decide (GetName r ∈ ns)) eqn:Hs;
     [apply bool_decide_eq_true in Hs | apply bool_decide_eq_false in Hs]|];
    simpl; try (split; [discriminate | intros (_ & ? & _); done]).
  all: destruct (topicRegexp rh) as [tp|];
    [destruct (anyTopic (MatchString tp) (Topics r)) eqn:Ht|]; simpl;
    try (apply anyTopic_true in Ht);
    try (split; [discriminate |
                 intros (_ & _ & Hex & _); apply anyTopic_true in Hex; congruence]).
  all: destruct (topicSet rh) as [ts|];
    [destruct (anyTopic (λ topic, bool_decide (topic ∈ ts)) (Topics r)) eqn:Hq|];
    simpl.
  all: try (apply anyTopic_true in Hq; destruct Hq as (q & Hq1 & Hq2);
            apply bool_decide_eq_true in Hq2).
  all: try (split; [intros _; repeat split; eauto | done]).
  all: split; [discriminate|]; intros (_ & _ & _ & (q & Hq1 & Hq2)).
  all: assert (anyTopic (λ topic, bool_decide (topic ∈ ts)) (Topics r) = true)
    as Hyes by (apply anyTopic_true; exists q; split;
                [done | by apply bool_decide_eq_true]).
  all: congruence.
Qed.

(** C8. A repository without topics fails as soon as a topic filter, the
    pattern or the set, is present. *)
Theorem matchRepo_no_topics_fails_topic_filter
  (rh : RepositoryExecutor) (r : Repository) :
  Topics r = [] →
  topicRegexp rh ≠ None ∨ topicSet rh ≠ None →
  matchRepo rh r = false.
Proof.
  intros Hnil Hactive. unfold matchRepo. rewrite Hnil.
  destruct (nameRegexp rh) as [np|]; [destruct (MatchString np (GetName r))|];
    simpl; try reflexivity.
  all: destruct (nameSet rh) as [ns|]; [destruct (bool_decide (GetName r ∈ ns))|];
    simpl; try reflexivity.
  all: destruct (topicRegexp rh) as [tp|]; simpl; try reflexivity.
  all: destruct (topicSet rh) as [ts|]; simpl; try reflexivity.
  all: destruct Hactive as [Ha | Ha]; by destruct Ha.
Qed.

End MatcherFacts.

Lemma matchRepo_no_topics_fails_topic_filter_witness :
  Topics Fixture.svcB = [] ∧
  matchRepo (set_topicSet (Some {["go"]}) Fixture.plain) Fixture.svcB = false.
Proof.
  split; [reflexivity|].
  apply (matchRepo_no_topics_fails_topic_filter
           (set_topicSet (Some {["go"]}) Fixture.plain) Fixture.svcB).
  - reflexivity.
  - right. simpl. discriminate.
Defined.

(** ** Repository Discoverer *)

Section DiscovererFacts.
Context {lib : GoLib}.

(** C4. The owner is resolved in this order: an organization, when set,
    wins whatever else is set; otherwise the authenticated caller, when
    credentials are set and their user is the named user; otherwise the
    named user, when set; otherwise discovery fails for want of an owner,
    with the message [no user or org specified]. *)
Theorem getRepositories_resolution_order (rh : RepositoryExecutor) :
  (∀ o, org rh = Some o → getRepositories rh = inr (ForOrg o)) ∧
  (org rh = None → credentialsMatchUser rh →
   getRepositories rh = inr ForAuthenticatedUser) ∧
  (org rh = None → ¬ credentialsMatchUser rh →
   ∀ u, user rh = Some u → getRepositories rh = inr (ForUser u)) ∧
  (org rh = None → user rh = None →
   getRepositories rh = inl "no user or org specified").
Proof.
  unfold getRepositories, credentialsMatchUser. repeat split.
  - intros o ->. reflexivity.
  - intros -> (u & token & -> & -> & ->). by rewrite bool_decide_true.
  - intros -> Hno u Hu. rewrite Hu.
    destruct (authUser rh) as [a|] eqn:Ha; [|done].
    destruct (authToken rh) as [token|] eqn:Ht; [|done].
    rewrite bool_decide_false; [done|].
    intros ->. apply Hno. by exists u, token.
  - intros -> ->. by destruct (authUser rh), (authToken rh).
Qed.

End DiscovererFacts.

(** ** Configuration *)

Section BuilderFacts.
Context {lib : GoLib}.

Lemma applyOptions_app (l1 l2 : list RepositoryExecutorOption)
  (exec : RepositoryExecutor) :
  applyOptions (l1 ++ l2) exec =
  match applyOptions l1 exec with
  | (exec', Some err) => (exec', Some err)
  | (exec', None) => applyOptions l2 exec'
  end.
Proof.
  revert exec. induction l1 as [|opt l1 IH]; intros exec; simpl; [done|].
  destruct (opt exec) as [exec' [err|]]; [done | apply IH].
Qed.

Lemma applyOptions_first_failure (pre post : list RepositoryExecutorOption)
  (opt : RepositoryExecutorOption) (exec exec1 exec2 : RepositoryExecutor)
  (e : error) :
  applyOptions pre exec = (exec1, None) →
  opt exec1 = (exec2, Some e) →
  applyOptions (pre ++ opt :: post) exec = (exec2, Some e).
Proof.
  intros Hpre Hopt. rewrite applyOptions_app, Hpre. simpl. by rewrite Hopt.
Qed.

(** C5. When the options before [opt] succeed and [opt] fails with [e],
    the build stops there: [NewRepositoryExecutor] returns [e] and no
    executor, whatever options follow; and [RunWithArgs], had it assembled
    that option list, returns [e] without reaching [handler.Go], the one
    place from which the network is used. *)
Theorem NewRepositoryExecutor_fails_atomically
  (wd : string) (pre post : list RepositoryExecutorOption)
  (opt : RepositoryExecutorOption) (exec1 exec2 : RepositoryExecutor) (e : error) :
  applyOptions pre (defaultExecutor wd) = (exec1, None) →
  opt exec1 = (exec2, Some e) →
  NewRepositoryExecutor (inr wd) (pre ++ opt :: post) = (None, Some e) ∧
  ∀ env args,
    Getwd env = inr wd →
    (if Args.Debug args then NewDevelopment env else NewProduction env) = None →
    buildOptions env
      (if Args.Debug args then DevelopmentLogger else ProductionLogger) args
      = inr (pre ++ opt :: post) →
    RunWithArgs env args = inl e.
Proof.
  intros Hpre Hopt.
  assert (NewRepositoryExecutor (inr wd) (pre ++ opt :: post) = (None, Some e))
    as Hnew.
  { unfold NewRepositoryExecutor.
    by rewrite (applyOptions_first_failure _ _ _ _ _ _ _ Hpre Hopt). }
  split; [done|].
  intros env args Hwd Hlog Hbuild. unfold RunWithArgs.
  destruct (Args.Debug args); rewrite Hlog, Hbuild, Hwd, Hnew; done.
Qed.

End BuilderFacts.

Lemma NewRepositoryExecutor_fails_atomically_witness :
  NewRepositoryExecutor (inr "/work")
    ([WithOrg "acme"; WithNameRegexp "["; WithConcurrency 4])
  = (None, Some "error parsing regexp: missing closing ]: `[`") ∧
  RunWithArgs Fixture.env Fixture.badArgs
  = inl "error parsing regexp: missing closing ]: `[`".
Proof.
  split.
  - eapply (NewRepositoryExecutor_fails_atomically "/work" [WithOrg "acme"]
              [WithConcurrency 4] (WithNameRegexp "[")); reflexivity.
  - eapply (NewRepositoryExecutor_fails_atomically "/work"
              [WithClient (WithAuthToken NewClient "ghp_token");
               WithLogger ProductionLogger; WithCleanup false;
               WithOverwrite false; WithConcurrency 1; WithTmpDir "./tmp";
               WithShellPath "/bin/sh"; WithUserAuth "ghp_token" "ghp_token";
               WithUser "octocat"]
              [] (WithNameRegexp "[")); reflexivity.
Defined.

(** ** Command-line front end *)

Section FrontEndFacts.
Context {lib : GoLib}.

(** C10. When both an auth user and an auth token are supplied, the
    executor [RunWithArgs] hands to [Go] has the token as its credential
    user and as its credential token; the supplied auth user is dropped.
    So a clone authenticates with the token as user name, and discovery
    lists the authenticated caller exactly when no organization is given
    and the named user is the token string. *)
Theorem RunWithArgs_installs_token_as_username
  (env : Env) (args : Args.t) (u token : string)
  (handler : RepositoryExecutor) (cmd : string) :
  Args.AuthUser args = Some u →
  Args.AuthToken args = Some token →
  RunWithArgs env args = inr (handler, cmd) →
  authUser handler = Some token ∧ authToken handler = Some token ∧
  cloneAuth handler = Some {| Username := token; Password := token |} ∧
  (getRepositories handler = inr ForAuthenticatedUser ↔
   Args.Org args = None ∧ Args.User args = Some token).
Proof.
  intros Hu Ht Hrun.
  destruct args as [c au at' o us ne nl te tl sh td cl ow nt js db].
  simpl in *. subst.
  (* every optional argument is there or not, every file reads or not,
     every pattern compiles or not: the branches that reach [Go] compute *)
  unfold RunWithArgs, buildOptions, appendIf, appendFile, NewRepositoryExecutor,
    WithNameRegexp, WithTopicRegexp in Hrun.
  simpl in Hrun.
  repeat (case_match; simplify_eq; simpl in *).
  all: unfold cloneAuth, getRepositories; simpl.
  all: repeat split; try done.
  all: try (intros (? & ?); simplify_eq; by rewrite ?bool_decide_true).
  all: try (case_bool_decide; by simplify_eq).
Qed.

End FrontEndFacts.

Lemma RunWithArgs_installs_token_as_username_witness :
  ∃ handler,
    RunWithArgs Fixture.env Fixture.args = inr (handler, "pwd") ∧
    authUser handler = Some "ghp_token" ∧
    cloneAuth handler
    = Some {| Username := "ghp_token"; Password := "ghp_token" |} ∧
    getRepositories handler = inr (ForUser "octocat").
Proof.
  eexists. split; [reflexivity|].
  destruct (RunWithArgs_installs_token_as_username Fixture.env Fixture.args
              "octocat" "ghp_token" _ "pwd" eq_refl eq_refl eq_refl)
    as (Huser & _ & Hauth & _).
  split; [exact Huser | split; [exact Hauth | reflexivity]].
Defined.

(** ** Work Coordinator *)

Section ListFacts.
Context {A : Type}.

Lemma filter_length_insert (P : A → Prop) `{!∀ x, Decision (P x)}
  (l : list A) (i : nat) (x y : A) :
  l !! i = Some x →
  (length (filter P (<[i:=y]> l)) + (if decide (P x) then 1 else 0) =
   length (filter P l) + (if decide (P y) then 1 else 0))%nat.
Proof.
  intros Hx.
  rewrite insert_take_drop by (by eapply lookup_lt_Some).
  rewrite <- (take_drop_middle l i x Hx) at 3.
  rewrite !filter_app, !filter_cons, !length_app.
  destruct (decide (P x)), (decide (P y)); simpl; lia.
Qed.

Lemma filter_length_mono (P Q : A → Prop)
  `{!∀ x, Decision (P x)} `{!∀ x, Decision (Q x)} (l : list A) :
  (∀ x, P x → Q x) → (length (filter P l) ≤ length (filter Q l))%nat.
Proof.
  intros HPQ. induction l as [|x l IH]; simpl; [done|].
  rewrite !filter_cons.
  destruct (decide (P x)) as [HP|], (decide (Q x)) as [|HQ]; simpl; try lia.
  by destruct HQ; apply HPQ.
Qed.

Lemma filter_length_all (P : A → Prop) `{!∀ x, Decision (P x)} (l : list A) :
  Forall P l → length (filter P l) = length l.
Proof.
  induction 1 as [|x l HP _ IH]; [done|].
  rewrite filter_cons, decide_True by done. simpl. by rewrite IH.
Qed.

Lemma omap_insert_perm {B : Type} (f : A → option B) (l : list A) (i : nat)
  (x y : A) :
  l !! i = Some x → f x = None →
  omap f (<[i:=y]> l) ≡ₚ omap f l ++ option_list (f y).
Proof.
  intros Hx Hfx.
  rewrite insert_take_drop by (by eapply lookup_lt_Some).
  rewrite <- (take_drop_middle l i x Hx) at 3.
  rewrite !omap_app. simpl. rewrite Hfx.
  destruct (f y) as [b|]; simpl.
  - rewrite <- Permutation_middle. apply Permutation_cons_append.
  - by rewrite app_nil_r.
Qed.

End ListFacts.

Section CoordinatorFacts.
Context {lib : GoLib} {os : OS}.
Variable rh : RepositoryExecutor.
Variable command : string.

(** What holds at the start and is kept by every step holds after every
    schedule. *)
Lemma run_invariant (I : State → Prop) :
  (∀ a s s', step rh command a s = Some s' → I s → I s') →
  ∀ schedule s s', run rh command schedule s = Some s' → I s → I s'.
Proof.
  intros Hstep schedule. induction schedule as [|a rest IH]; intros s s' Hrun Hs.
  - by injection Hrun as <-.
  - simpl in Hrun. destruct (step rh command a s) as [s1|] eqn:Ha; [|done].
    eapply IH; [done|]. by eapply Hstep.
Qed.

Lemma run_app (l1 l2 : list Action) (s : State) :
  run rh command (l1 ++ l2) s =
  match run rh command l1 s with
  | Some s1 => run rh command l2 s1
  | None => None
  end.
Proof.
  revert s. induction l1 as [|a l1 IH]; intros s; simpl; [done|].
  by destruct (step rh command a s).
Qed.

(** No closure ever returns a non-nil error to its group. *)
Lemma recordReturn_nil (p : Phase) (e : option error) : recordReturn p e = e.
Proof. by destruct e, p. Qed.

Lemma closureStep_not_returned g r p w x :
  closureStep rh command g r p w = Some x → returned p = false.
Proof. by destruct p. Qed.

(** A step of a closure either sends nothing and has sent nothing, or
    sends the one result it then remembers. *)
Lemma closureStep_results g r p w w' p' out evs :
  closureStep rh command g r p w = Some (w', p', out, evs) →
  sent {| repo := r; phase := p |} = None ∧
  out = option_list (sent {| repo := r; phase := p' |}).
Proof.
  unfold closureStep, sent. intros H.
  destruct p; simpl in *; repeat case_match; by simplify_eq.
Qed.

Lemma closureStep_rank g r p w w' p' out evs :
  closureStep rh command g r p w = Some (w', p', out, evs) →
  (phaseRank p < phaseRank p')%nat.
Proof.
  unfold closureStep. intros H.
  destruct p; simpl in *; repeat case_match; simplify_eq; simpl; lia.
Qed.

(** Only the step out of [Started] issues a clone call, and only its own. *)
Lemma closureStep_clone_calls g r p w w' p' out evs :
  closureStep rh command g r p w = Some (w', p', out, evs) →
  (∀ g', g' ≠ g → cloneCallsOf g' evs = 0%nat) ∧
  (p ≠ Started → cloneCallsOf g evs = 0%nat) ∧
  (p = Started →
   cloneCallsOf g evs =
   if StatIsNotExist w (pathJoin (tmpDir rh) (GetName r)) then 1%nat else 0%nat).
Proof.
  unfold closureStep, cloneCallsOf. intros H.
  destruct p; simpl in *; repeat case_match; simplify_eq.
  all: repeat split; try done; intros; simpl.
  all: rewrite ?filter_cons, ?filter_nil; simpl.
  all: repeat case_decide; repeat case_bool_decide; simpl; done.
Qed.

Lemma cloneCallsOf_app g t1 t2 :
  cloneCallsOf g (t1 ++ t2) = (cloneCallsOf g t1 + cloneCallsOf g t2)%nat.
Proof. unfold cloneCallsOf. by rewrite filter_app, length_app. Qed.

Lemma cloneCallsOf_log g msg e : cloneCallsOf g [LogError msg e] = 0%nat.
Proof. reflexivity. Qed.

(** The shape of a successful [advance]. *)
Lemma advance_Some g s s' :
  advance rh command g s = Some s' →
  ∃ gr w' p' out evs,
    goroutines s !! g = Some gr ∧
    closureStep rh command g (repo gr) (phase gr) (world s)
      = Some (w', p', out, evs) ∧
    s' = {| world := w'; repoCh := repoCh s; ctxDone := ctxDone s;
            groupErr := groupErr s;
            goroutines := <[g := {| repo := repo gr; phase := p' |}]> (goroutines s);
            results := results s ++ out; trace := trace s ++ evs |}.
Proof.
  unfold advance. intros H.
  destruct (goroutines s !! g) as [gr|] eqn:Hg; [|done].
  destruct (closureStep rh command g (repo gr) (phase gr) (world s))
    as [[[[w' p'] out] evs]|] eqn:Hc; [|done].
  injection H as <-. rewrite recordReturn_nil. by exists gr, w', p', out, evs.
Qed.

(** The shape of a successful [dispatch]. *)
Lemma dispatch_Some s s' :
  dispatch rh s = Some s' →
  ∃ r rest, repoCh s = r :: rest ∧ repoCh s' = rest ∧
    world s' = world s ∧ ctxDone s' = ctxDone s ∧ groupErr s' = groupErr s ∧
    results s' = results s ∧
    ((ctxDone s = true ∧ goroutines s' = goroutines s ∧
      trace s' = trace s ++ [LogError "context error" "context canceled"]) ∨
     (ctxDone s = false ∧ slotFree rh s = true ∧ trace s' = trace s ∧
      goroutines s' = goroutines s ++ [{| repo := r; phase := Started |}])).
Proof.
  unfold dispatch. intros H.
  destruct (repoCh s) as [|r rest]; [done|]. exists r, rest.
  destruct (ctxDone s) eqn:Hc.
  - injection H as <-. simpl. naive_solver.
  - destruct (slotFree rh s) eqn:Hf; [|done].
    injection H as <-. simpl. naive_solver.
Qed.

(** *** What every step keeps *)

Lemma step_groupErr a s s' :
  step rh command a s = Some s' → groupErr s' = groupErr s.
Proof.
  destruct a as [|g|]; simpl; intros H.
  - by apply dispatch_Some in H as (r & rest & _ & _ & _ & _ & He & _).
  - apply advance_Some in H as (gr & w' & p' & out & evs & _ & _ & ->). done.
  - by injection H as <-.
Qed.

(** A closure that moves was active, so moving it frees a slot or keeps
    it; only the dispatch loop takes one, and only when one is free. *)
Lemma step_active a s s' :
  step rh command a s = Some s' →
  0 < concurrency rh →
  Z.of_nat (active s) ≤ concurrency rh →
  Z.of_nat (active s') ≤ concurrency rh.
Proof.
  destruct a as [|g|]; simpl; intros H Hpos Hle.
  - apply dispatch_Some in H
      as (r & rest & _ & _ & _ & _ & _ & _ & [(_ & Hg & _) | (_ & Hfree & _ & Hg)]);
      unfold active in *; rewrite Hg; [done|].
    rewrite filter_app, length_app, filter_cons, filter_nil. simpl.
    unfold slotFree, active in Hfree.
    apply orb_true_iff in Hfree as [Hneg | Hlt]; [lia|].
    apply Z.ltb_lt in Hlt. lia.
  - apply advance_Some in H as (gr & w' & p' & out & evs & Hg & Hc & ->).
    unfold active in *. simpl.
    pose proof (filter_length_insert (λ g, returned (phase g) = false)
                  (goroutines s) g gr {| repo := repo gr; phase := p' |} Hg) as Hlen.
    apply closureStep_not_returned in Hc.
    rewrite decide_True in Hlen by done.
    destruct (decide _) in Hlen; lia.
  - by injection H as <-.
Qed.

Lemma running_le_active s : (running s ≤ active s)%nat.
Proof.
  unfold running, active. apply filter_length_mono.
  intros g Hg. by destruct (phase g).
Qed.

(** The results received are, in some order, the results the closures
    have sent. *)
Lemma step_results a s s' :
  step rh command a s = Some s' →
  results s ≡ₚ omap sent (goroutines s) →
  results s' ≡ₚ omap sent (goroutines s').
Proof.
  destruct a as [|g|]; simpl; intros H Hperm.
  - apply dispatch_Some in H
      as (r & rest & _ & _ & _ & _ & _ & Hres & [(_ & Hg & _) | (_ & _ & _ & Hg)]);
      rewrite Hres, Hg; [done|].
    rewrite omap_app. simpl. by rewrite app_nil_r.
  - apply advance_Some in H as (gr & w' & p' & out & evs & Hg & Hc & ->).
    apply closureStep_results in Hc as (Hold & ->). simpl.
    rewrite (omap_insert_perm sent _ _ gr) by (done || by destruct gr).
    by rewrite Hperm.
  - by injection H as <-.
Qed.

(** A closure keeps its repository and only moves forward. *)
Lemma step_goroutine a s s' g gr :
  step rh command a s = Some s' →
  goroutines s !! g = Some gr →
  ∃ gr', goroutines s' !! g = Some gr' ∧ repo gr' = repo gr ∧
         (phaseRank (phase gr) ≤ phaseRank (phase gr'))%nat ∧
         (a = Advance g → (phaseRank (phase gr) < phaseRank (phase gr'))%nat).
Proof.
  destruct a as [|g0|]; simpl; intros H Hg.
  - apply dispatch_Some in H
      as (r & rest & _ & _ & _ & _ & _ & _ & [(_ & Hgs & _) | (_ & _ & _ & Hgs)]);
      rewrite Hgs; exists gr; repeat split; try done.
    by apply lookup_app_l_Some.
  - apply advance_Some in H as (gr0 & w' & p' & out & evs & Hg0 & Hc & ->).
    simpl. destruct (decide (g0 = g)) as [->|Hne].
    + rewrite Hg in Hg0. injection Hg0 as <-.
      apply closureStep_rank in Hc.
      eexists. rewrite list_lookup_insert_eq by (by eapply lookup_lt_Some).
      split; [done|]. simpl. repeat split; intros; lia.
    + exists gr. rewrite list_lookup_insert_ne by done.
      repeat split; try done. intros [= ?]. done.
  - injection H as <-. exists gr. by repeat split.
Qed.

Lemma step_noCloneBeforeStat a s s' :
  step rh command a s = Some s' → noCloneBeforeStat s → noCloneBeforeStat s'.
Proof.
  destruct a as [|g0|]; simpl; intros H Hinv g; specialize (Hinv g).
  - apply dispatch_Some in H
      as (r & rest & _ & _ & _ & _ & _ & _ & [(_ & -> & ->) | (_ & _ & -> & ->)]).
    + rewrite cloneCallsOf_app. simpl.
      destruct (goroutines s !! g); [intros Hp; rewrite Hinv by done|rewrite Hinv];
        done.
    + destruct (goroutines s !! g) as [gr|] eqn:Hg.
      * by rewrite (lookup_app_l_Some _ _ _ _ Hg).
      * by destruct ((goroutines s ++ _) !! g).
  - apply advance_Some in H as (gr0 & w' & p' & out & evs & Hg0 & Hc & ->).
    simpl. rewrite cloneCallsOf_app.
    pose proof (closureStep_rank _ _ _ _ _ _ _ _ Hc) as Hrank.
    apply closureStep_clone_calls in Hc as (Hother & _ & _).
    destruct (decide (g = g0)) as [->|Hne].
    + rewrite list_lookup_insert_eq by (by eapply lookup_lt_Some). simpl.
      intros ->. simpl in Hrank. lia.
    + rewrite list_lookup_insert_ne by done. rewrite (Hother g Hne).
      destruct (goroutines s !! g); [intros Hp; rewrite Hinv by done|rewrite Hinv];
        done.
  - by injection H as <-.
Qed.

Lemma step_settled g n a s s' :
  step rh command a s = Some s' → settled g n s → settled g n s'.
Proof.
  intros H ((gr & Hg & Hp) & Hn).
  destruct (step_goroutine _ _ _ _ _ H Hg) as (gr' & Hg' & _ & Hrank & _).
  split.
  - exists gr'. split; [done|]. intros Hs. rewrite Hs in Hrank.
    destruct (phase gr); simpl in *; done || lia.
  - destruct a as [|g0|]; simpl in H.
    + apply dispatch_Some in H
        as (r & rest & _ & _ & _ & _ & _ & _ & [(_ & _ & ->) | (_ & _ & -> & _)]);
        [|done].
      rewrite cloneCallsOf_app, cloneCallsOf_log. lia.
    + apply advance_Some in H as (gr0 & w' & p' & out & evs & Hg0 & Hc & ->).
      simpl. rewrite cloneCallsOf_app.
      apply closureStep_clone_calls in Hc as (Hother & Hpast & _).
      destruct (decide (g = g0)) as [->|Hne].
      * rewrite Hg in Hg0. injection Hg0 as <-. rewrite Hpast by done. lia.
      * rewrite (Hother g Hne). lia.
    + by injection H as <-.
Qed.

(** A closure that returned after a failed clone stays there. *)
Lemma step_cloneFailed g r e a s s' :
  step rh command a s = Some s' →
  goroutines s !! g = Some {| repo := r; phase := CloneFailed e |} →
  goroutines s' !! g = Some {| repo := r; phase := CloneFailed e |}.
Proof.
  intros H Hg.
  destruct (step_goroutine _ _ _ _ _ H Hg) as (gr' & Hg' & Hrepo & Hrank & _).
  destruct a as [|g0|]; simpl in H.
  - apply dispatch_Some in H
      as (r' & rest & _ & _ & _ & _ & _ & _ & [(_ & -> & _) | (_ & _ & _ & ->)]);
      [done|]. by apply lookup_app_l_Some.
  - apply advance_Some in H as (gr0 & w' & p' & out & evs & Hg0 & Hc & ->).
    simpl. destruct (decide (g = g0)) as [->|Hne].
    + rewrite Hg in Hg0. injection Hg0 as <-. done.
    + by rewrite list_lookup_insert_ne.
  - by injection H as <-.
Qed.

Lemma sent_or_cloneFailed (gs : list Goroutine) :
  Forall (λ g, returned (phase g) = true) gs →
  (length (omap sent gs) + length (filter (λ g, cloneFailed g = true) gs)
   = length gs)%nat.
Proof.
  induction 1 as [|g gs Hg _ IH]; [done|].
  rewrite filter_cons. destruct g as [r p].
  destruct p; simpl in *; try done.
  all: unfold omap in *; lia.
Qed.

Lemma sent_at_most_one (gs : list Goroutine) :
  (length (omap sent gs) ≤ length gs)%nat.
Proof.
  induction gs as [|g gs IH]; [done|]. simpl.
  destruct (sent g); simpl; unfold omap in *; lia.
Qed.

(** Without a limit the dispatch loop can start every repository before
    any closure returns. *)
Lemma unbounded_fills (repos : list Repository) :
  concurrency rh < 0 →
  ∀ s, repoCh s = repos → ctxDone s = false →
    Forall (λ g, inFlight (phase g) = true) (goroutines s) →
    ∃ schedule s',
      run rh command schedule s = Some s' ∧
      Forall (λ g, inFlight (phase g) = true) (goroutines s') ∧
      length (goroutines s') = (length (goroutines s) + length repos)%nat.
Proof.
  intros Hneg. induction repos as [|r rest IH]; intros s Hch Hctx Hall.
  - exists [], s. simpl. repeat split; [done | lia].
  - set (g := length (goroutines s)).
    set (dir := pathJoin (tmpDir rh) (GetName r)).
    destruct (StatIsNotExist (world s) dir) eqn:Hstat.
    + set (s2 := {| world := world s; repoCh := rest; ctxDone := ctxDone s;
                    groupErr := groupErr s;
                    goroutines := goroutines s ++ [{| repo := r; phase := Cloning |}];
                    results := results s;
                    trace := trace s ++ [CloneCall g dir (GetCloneURL r) (cloneAuth rh)] |}).
      destruct (IH s2) as (schedule & s' & Hrun & Hall' & Hlen); [done | done | |].
      { apply Forall_app. split; [done|]. by apply Forall_singleton. }
      exists (Dispatch :: Advance g :: schedule), s'. split; [|split; [done|]].
      * simpl. unfold dispatch. rewrite Hch, Hctx.
        unfold slotFree. apply Z.ltb_lt in Hneg. rewrite Hneg. simpl.
        unfold advance. simpl. rewrite list_lookup_middle by done. simpl.
        fold dir. rewrite Hstat.
        rewrite insert_app_r_alt, Nat.sub_diag by done. simpl.
        rewrite app_nil_r, recordReturn_nil, <- Hctx. exact Hrun.
      * rewrite Hlen. simpl. rewrite length_app. simpl. lia.
    + set (s2 := {| world := world s; repoCh := rest; ctxDone := ctxDone s;
                    groupErr := groupErr s;
                    goroutines := goroutines s ++ [{| repo := r; phase := Executing |}];
                    results := results s; trace := trace s |}).
      destruct (IH s2) as (schedule & s' & Hrun & Hall' & Hlen); [done | done | |].
      { apply Forall_app. split; [done|]. by apply Forall_singleton. }
      exists (Dispatch :: Advance g :: schedule), s'. split; [|split; [done|]].
      * simpl. unfold dispatch. rewrite Hch, Hctx.
        unfold slotFree. apply Z.ltb_lt in Hneg. rewrite Hneg. simpl.
        unfold advance. simpl. rewrite list_lookup_middle by done. simpl.
        fold dir. rewrite Hstat.
        rewrite insert_app_r_alt, Nat.sub_diag by done. simpl.
        rewrite !app_nil_r, recordReturn_nil, <- Hctx. exact Hrun.
      * rewrite Hlen. simpl. rewrite length_app. simpl. lia.
Qed.

(** Every clone call into a directory is the call of a closure that
    works in that directory and is past its check. *)
Lemma cloneCallsTo_app dest t1 t2 :
  cloneCallsTo dest (t1 ++ t2) = (cloneCallsTo dest t1 + cloneCallsTo dest t2)%nat.
Proof. unfold cloneCallsTo. by rewrite filter_app, length_app. Qed.

Lemma closureStep_clones_to dest g r p w w' p' out evs :
  closureStep rh command g r p w = Some (w', p', out, evs) →
  pastStat p' = true ∧
  (cloneCallsTo dest evs ≤
   if pastStat p then 0
   else if bool_decide (pathJoin (tmpDir rh) (GetName r) = dest) then 1 else 0)%nat.
Proof.
  unfold closureStep, cloneCallsTo. intros H.
  destruct p; simpl in *; repeat case_match; simplify_eq; simpl.
  all: split; [done|]; rewrite ?filter_cons, ?filter_nil; simpl.
  all: repeat case_decide; repeat case_bool_decide; simpl; done || lia.
Qed.

Lemma step_clones_to dest a s s' :
  step rh command a s = Some s' →
  (cloneCallsTo dest (trace s)
   ≤ length (filter (inDirectory rh dest) (goroutines s)))%nat →
  (cloneCallsTo dest (trace s')
   ≤ length (filter (inDirectory rh dest) (goroutines s')))%nat.
Proof.
  destruct a as [|g|]; simpl; intros H Hle.
  - apply dispatch_Some in H
      as (r & rest & _ & _ & _ & _ & _ & _ & [(_ & -> & ->) | (_ & _ & -> & ->)]).
    + rewrite cloneCallsTo_app. unfold cloneCallsTo at 2. simpl. lia.
    + rewrite filter_app, length_app. lia.
  - apply advance_Some in H as (gr & w' & p' & out & evs & Hg & Hc & ->).
    simpl. rewrite cloneCallsTo_app.
    apply (closureStep_clones_to dest) in Hc as (Hpast & Hevs).
    pose proof (filter_length_insert (inDirectory rh dest) (goroutines s) g gr
                  {| repo := repo gr; phase := p' |} Hg) as Hlen.
    destruct (decide (inDirectory rh dest gr)) as [[Hd Hp]|Hn] in Hlen;
      destruct (decide (inDirectory rh dest {| repo := repo gr; phase := p' |}))
        as [[Hd' Hp']|Hn'] in Hlen; simpl in *.
    + rewrite Hp in Hevs. lia.
    + by destruct Hn'.
    + destruct (pastStat (phase gr)); [lia|]. case_bool_decide; lia.
    + destruct (pastStat (phase gr)); [lia|].
      case_bool_decide as Hdir; [|lia]. by destruct Hn'.
  - by injection H as <-.
Qed.

(** The closures started and the repositories still queued are, in
    order, among the repositories discovered. *)
Lemma step_dispatched a s s' :
  step rh command a s = Some s' →
  (repo <$> goroutines s') ++ repoCh s' `sublist_of`
  (repo <$> goroutines s) ++ repoCh s.
Proof.
  destruct a as [|g|]; simpl; intros H.
  - apply dispatch_Some in H
      as (r & rest & -> & -> & _ & _ & _ & _ & [(_ & -> & _) | (_ & _ & _ & ->)]).
    + apply sublist_app; [done|]. by apply sublist_cons.
    + by rewrite fmap_app, <- app_assoc.
  - apply advance_Some in H as (gr & w' & p' & out & evs & Hg & Hc & ->).
    simpl. rewrite list_fmap_insert. simpl.
    rewrite list_insert_id; [done|]. by rewrite list_lookup_fmap, Hg.
  - by injection H as <-.
Qed.

Lemma filter_absent {A B : Type} (f : A → B) (Q : A → Prop) (d : B)
  `{!∀ x, Decision (f x = d ∧ Q x)} (l : list A) :
  d ∉ f <$> l → filter (λ x, f x = d ∧ Q x) l = [].
Proof.
  induction l as [|x l IH]; simpl; [done|].
  intros [Hx Hl]%not_elem_of_cons. rewrite filter_cons.
  destruct (decide _) as [[Hfx _]|]; [by destruct Hx | by apply IH].
Qed.

Lemma filter_unique {A B : Type} (f : A → B) (Q : A → Prop) (d : B)
  `{!∀ x, Decision (f x = d ∧ Q x)} (l : list A) :
  NoDup (f <$> l) → (length (filter (λ x, f x = d ∧ Q x) l) ≤ 1)%nat.
Proof.
  induction l as [|x l IH]; simpl; [lia|].
  intros [Hx Hl]%NoDup_cons. rewrite filter_cons.
  destruct (decide _) as [[Hfx _]|]; [|by apply IH].
  simpl. rewrite filter_absent; [done|]. by rewrite <- Hfx.
Qed.

Lemma reachable_groupErr w repos schedule s :
  run rh command schedule (initial w repos) = Some s → groupErr s = None.
Proof.
  intros Hrun.
  apply (run_invariant (λ s, groupErr s = None)) in Hrun; [done | | done].
  intros a s1 s2 Hstep <-. by eapply step_groupErr.
Qed.

(** *** The claims *)

(** C7. A closure decides once, when it looks at its directory: if the
    directory is there it never issues a clone call, however the run goes
    on; if it is not there it issues one clone call at once and never a
    second one. So when no two discovered repositories share a directory,
    no directory is cloned into twice in a run. *)
Theorem clone_only_when_directory_absent
  (w : World) (repos : list Repository) (schedule : list Action) (s : State) :
  run rh command schedule (initial w repos) = Some s →
  (∀ g gr,
     goroutines s !! g = Some gr →
     phase gr = Started →
     ∃ s1, advance rh command g s = Some s1 ∧
       if StatIsNotExist (world s) (pathJoin (tmpDir rh) (GetName (repo gr)))
       then trace s1 = trace s ++
              [CloneCall g (pathJoin (tmpDir rh) (GetName (repo gr)))
                 (GetCloneURL (repo gr)) (cloneAuth rh)] ∧
            ∀ later s2, run rh command later s1 = Some s2 →
                        cloneCallsOf g (trace s2) = 1%nat
       else trace s1 = trace s ∧
            ∀ later s2, run rh command later s1 = Some s2 →
                        cloneCallsOf g (trace s2) = 0%nat) ∧
  (NoDup ((λ r, pathJoin (tmpDir rh) (GetName r)) <$> repos) →
   ∀ dest, (cloneCallsTo dest (trace s) ≤ 1)%nat).
Proof.
  intros Hrun. split.
  - intros g gr Hg Hp.
    assert (cloneCallsOf g (trace s) = 0%nat) as Hzero.
    { apply (run_invariant noCloneBeforeStat) in Hrun.
      - specialize (Hrun g). rewrite Hg in Hrun. by apply Hrun.
      - apply step_noCloneBeforeStat.
      - intros g'. reflexivity. }
    unfold advance. rewrite Hg, Hp. simpl.
    destruct (StatIsNotExist _ _) eqn:Hstat; eexists; (split; [reflexivity|]);
      simpl; (split; [by rewrite ?app_nil_r|]); intros later s2 Hlater.
    + apply (run_invariant (settled g 1)) in Hlater; [by destruct Hlater | |].
      * apply step_settled.
      * split; simpl.
        -- eexists. rewrite list_lookup_insert_eq by (by eapply lookup_lt_Some).
           split; [done|]. done.
        -- rewrite cloneCallsOf_app, Hzero. unfold cloneCallsOf.
           rewrite filter_cons, decide_True; [done|]. simpl.
           by rewrite bool_decide_true.
    + apply (run_invariant (settled g 0)) in Hlater; [by destruct Hlater | |].
      * apply step_settled.
      * split; simpl.
        -- eexists. rewrite list_lookup_insert_eq by (by eapply lookup_lt_Some).
           split; [done|]. done.
        -- by rewrite app_nil_r.
  - intros Hdirs dest.
    assert ((repo <$> goroutines s) ++ repoCh s `sublist_of` repos) as Hsub.
    { refine (run_invariant
                (λ s, (repo <$> goroutines s) ++ repoCh s `sublist_of` repos)
                _ schedule _ s Hrun _); [|done].
      intros a sa sb Hstep Hsa. etrans; [by eapply step_dispatched | done]. }
    assert (cloneCallsTo dest (trace s)
            ≤ length (filter (inDirectory rh dest) (goroutines s)))%nat as Hle.
    { refine (run_invariant
                (λ s, (cloneCallsTo dest (trace s)
                       ≤ length (filter (inDirectory rh dest) (goroutines s)))%nat)
                (step_clones_to dest) schedule _ s Hrun _).
      simpl. unfold cloneCallsTo. simpl. lia. }
    etrans; [exact Hle|].
    apply (filter_unique (λ gr, pathJoin (tmpDir rh) (GetName (repo gr)))).
    change (NoDup (((λ r, pathJoin (tmpDir rh) (GetName r)) ∘ repo)
                     <$> goroutines s)).
    rewrite list_fmap_compose.
    eapply sublist_NoDup; [exact Hdirs|].
    apply fmap_sublist. etrans; [|exact Hsub]. by apply sublist_inserts_r.
Qed.

(** C6. A closure that has reached the command runs it as
    [shellPath -c command] in the repository's directory; what the command
    wrote to stdout and stderr and the error it ended with, if any, go
    into the result, which is sent next. The error is not returned to the
    group: [repoG.Wait()] still returns nil, the context is as it was and
    the repositories still queued stay queued. *)
Theorem command_failure_is_recorded_not_fatal
  (w : World) (repos : list Repository) (schedule : list Action)
  (s : State) (g : nat) (gr : Goroutine)
  (w' : World) (out errout : string) (err : option error) :
  run rh command schedule (initial w repos) = Some s →
  goroutines s !! g = Some gr →
  phase gr = Executing →
  CommandRun (world s) (shellPath rh) ["-c"; command]
    (pathJoin (tmpDir rh) (GetName (repo gr))) = (w', (out, errout, err)) →
  ∃ s1 s2,
    advance rh command g s = Some s1 ∧
    advance rh command g s1 = Some s2 ∧
    results s2 = results s ++
      [{| Path := pathJoin (tmpDir rh) (GetName (repo gr)); Command := command;
          Stdout := out; Stderr := errout; Error := err |}] ∧
    groupErr s2 = None ∧ ctxDone s2 = ctxDone s ∧ repoCh s2 = repoCh s.
Proof.
  intros Hrun Hg Hp Hcmd.
  pose proof (reachable_groupErr _ _ _ _ Hrun) as Herr.
  unfold advance at 1. rewrite Hg, Hp. simpl.
  unfold execCommand. rewrite Hcmd. eexists. eexists. split; [reflexivity|].
  unfold advance. simpl.
  rewrite list_lookup_insert_eq by (by eapply lookup_lt_Some). simpl.
  split; [reflexivity|]. simpl.
  rewrite !recordReturn_nil. by rewrite <- app_assoc.
Qed.

(** C1, as the code has it. A clone that fails is logged and ends its
    closure: no result is sent for the repository, then or later. The
    failure is not returned to the group, so the run is not aborted and
    the repositories still queued stay queued. *)
Theorem clone_failure_is_logged_and_skipped
  (w : World) (repos : list Repository) (schedule : list Action)
  (s : State) (g : nat) (gr : Goroutine) (w' : World) (e : error) :
  run rh command schedule (initial w repos) = Some s →
  goroutines s !! g = Some gr →
  phase gr = Cloning →
  PlainCloneContext (world s) (pathJoin (tmpDir rh) (GetName (repo gr)))
    (GetCloneURL (repo gr)) (cloneAuth rh) = (w', Some e) →
  ∃ s1,
    advance rh command g s = Some s1 ∧
    results s1 = results s ∧
    trace s1 = trace s ++ [LogError "error cloning repository" e] ∧
    groupErr s1 = None ∧ ctxDone s1 = ctxDone s ∧ repoCh s1 = repoCh s ∧
    ∀ later s2, run rh command later s1 = Some s2 →
      goroutines s2 !! g = Some {| repo := repo gr; phase := CloneFailed e |} ∧
      sent {| repo := repo gr; phase := CloneFailed e |} = None ∧
      results s2 ≡ₚ omap sent (goroutines s2) ∧
      groupErr s2 = None.
Proof.
  intros Hrun Hg Hp Hclone.
  pose proof (reachable_groupErr _ _ _ _ Hrun) as Herr.
  assert (results s ≡ₚ omap sent (goroutines s)) as Hperm.
  { apply (run_invariant (λ s, results s ≡ₚ omap sent (goroutines s))) in Hrun;
      [done | apply step_results | done]. }
  destruct (advance rh command g s) as [s1|] eqn:Hadv.
  2:{ unfold advance in Hadv. rewrite Hg, Hp in Hadv. simpl in Hadv.
      unfold cloneRepo in Hadv. by rewrite Hclone in Hadv. }
  exists s1. split; [done|].
  assert (results s1 ≡ₚ omap sent (goroutines s1)) as Hperm1
    by (by apply (step_results (Advance g) s s1)).
  assert (goroutines s1 !! g = Some {| repo := repo gr; phase := CloneFailed e |}
          ∧ results s1 = results s
          ∧ trace s1 = trace s ++ [LogError "error cloning repository" e]
          ∧ groupErr s1 = None ∧ ctxDone s1 = ctxDone s ∧ repoCh s1 = repoCh s)
    as (Hg1 & Hres & Htrace & Herr1 & Hctx & Hch).
  { unfold advance in Hadv. rewrite Hg, Hp in Hadv. simpl in Hadv.
    unfold cloneRepo in Hadv. rewrite Hclone in Hadv. injection Hadv as <-.
    simpl. rewrite recordReturn_nil, app_nil_r.
    by rewrite list_lookup_insert_eq by (by eapply lookup_lt_Some). }
  repeat (split; [done|]).
  intros later s2 Hlater. repeat split.
  - revert Hg1. apply (run_invariant _ (λ a sa sb, step_cloneFailed g _ e a sa sb)
                         later s1 s2 Hlater).
  - revert Hperm1. apply (run_invariant _ step_results later s1 s2 Hlater).
  - refine (run_invariant (λ s, groupErr s = None) _ later s1 s2 Hlater Herr1).
    intros a sa sb Hstep <-. by eapply step_groupErr.
Qed.

(** C2, as the code has it. At every moment the results received are, in
    some order, exactly the results of the closures that have finished,
    one each; so there are never more results than closures, and once the
    stage is over the results and the failed clones together count the
    repositories dispatched. *)
Theorem results_are_the_finished_closures
  (w : World) (repos : list Repository) (schedule : list Action) (s : State) :
  run rh command schedule (initial w repos) = Some s →
  results s ≡ₚ omap sent (goroutines s) ∧
  (length (results s) ≤ length (goroutines s))%nat ∧
  (finished s →
   (length (results s)
    + length (filter (λ g, cloneFailed g = true) (goroutines s))
    = length (goroutines s))%nat).
Proof.
  intros Hrun.
  assert (results s ≡ₚ omap sent (goroutines s)) as Hperm.
  { apply (run_invariant (λ s, results s ≡ₚ omap sent (goroutines s))) in Hrun;
      [done | apply step_results | done]. }
  split; [done|]. rewrite Hperm. split.
  - apply sent_at_most_one.
  - intros (_ & Hall). by apply sent_or_cloneFailed.
Qed.

(** C9. Under a positive limit no more closures than the limit are ever
    active, so no more clones and commands than the limit run at once; a
    negative limit removes the bound: every repository can be in flight
    at the same time; and a closure keeps the repository it was started
    for and only moves forward, each of its own steps taking it further
    from the directory check towards its return. *)
Theorem concurrency_limit_bounds_closures_in_flight
  (w : World) (repos : list Repository) (schedule : list Action) (s : State) :
  run rh command schedule (initial w repos) = Some s →
  (0 < concurrency rh →
   Z.of_nat (running s) ≤ concurrency rh ∧
   Z.of_nat (active s) ≤ concurrency rh) ∧
  (concurrency rh < 0 →
   ∃ schedule' s', run rh command schedule' (initial w repos) = Some s' ∧
                   running s' = length repos) ∧
  (∀ a s' g gr,
     step rh command a s = Some s' →
     goroutines s !! g = Some gr →
     ∃ gr', goroutines s' !! g = Some gr' ∧ repo gr' = repo gr ∧
            (phaseRank (phase gr) ≤ phaseRank (phase gr'))%nat ∧
            (a = Advance g → (phaseRank (phase gr) < phaseRank (phase gr'))%nat)).
Proof.
  intros Hrun. split; [|split].
  - intros Hpos.
    assert (Z.of_nat (active s) ≤ concurrency rh) as Hact.
    { apply (run_invariant (λ s, Z.of_nat (active s) ≤ concurrency rh)) in Hrun.
      - done.
      - intros a s1 s2 Hstep. by apply (step_active a).
      - unfold active. simpl. lia. }
    split; [|done]. pose proof (running_le_active s). lia.
  - intros Hneg.
    destruct (unbounded_fills repos Hneg (initial w repos))
      as (schedule' & s' & Hrun' & Hall & Hlen); try done.
    exists schedule', s'. split; [done|].
    unfold running. rewrite filter_length_all by done. by rewrite Hlen.
  - intros a s' g gr. apply step_goroutine.
Qed.

End CoordinatorFacts.

(** *** The claims on the fixture *)

Lemma clone_only_when_directory_absent_witness :
  ∃ s s1,
    run Fixture.plain "pwd" [Dispatch] (initial Fixture.warm [Fixture.svcA; Fixture.svcB])
    = Some s ∧
    advance Fixture.plain "pwd" 0 s = Some s1 ∧
    trace s1 = [] ∧
    ∀ later s2, run Fixture.plain "pwd" later s1 = Some s2 →
                cloneCallsOf 0 (trace s2) = 0%nat.
Proof.
  eassert (run Fixture.plain "pwd" [Dispatch]
             (initial Fixture.warm [Fixture.svcA; Fixture.svcB]) = Some _) as Hrun
    by (vm_compute; reflexivity).
  eexists.
  destruct (clone_only_when_directory_absent Fixture.plain "pwd" Fixture.warm
              [Fixture.svcA; Fixture.svcB] [Dispatch] _ Hrun) as (Hclosure & _).
  destruct (Hclosure 0%nat _ eq_refl eq_refl) as (s1 & Hadv & Hif).
  exists s1. split; [exact Hrun|]. split; [exact Hadv|].
  vm_compute in Hif. exact Hif.
Defined.

Lemma command_failure_is_recorded_not_fatal_witness :
  ∃ s s1 s2,
    run Fixture.plain "false" [Dispatch; Advance 0] (initial Fixture.warm [Fixture.svcA])
    = Some s ∧
    advance Fixture.plain "false" 0 s = Some s1 ∧
    advance Fixture.plain "false" 0 s1 = Some s2 ∧
    results s2 =
      [{| Path := "/work/tmp/svc-a"; Command := "false"; Stdout := "";
          Stderr := ""; Error := Some "exit status 1" |}] ∧
    groupErr s2 = None ∧ ctxDone s2 = false ∧ repoCh s2 = [].
Proof.
  eassert (run Fixture.plain "false" [Dispatch; Advance 0]
             (initial Fixture.warm [Fixture.svcA]) = Some _) as Hrun
    by (vm_compute; reflexivity).
  eassert (CommandRun Fixture.warm "/bin/sh" ["-c"; "false"] "/work/tmp/svc-a"
           = (_, (_, _, _))) as Hcmd
    by (vm_compute; reflexivity).
  eexists.
  destruct (command_failure_is_recorded_not_fatal Fixture.plain "false"
              Fixture.warm [Fixture.svcA] [Dispatch; Advance 0] _ 0%nat _
              _ _ _ _ Hrun eq_refl eq_refl Hcmd)
    as (s1 & s2 & H1 & H2 & Hres & Herr & Hctx & Hch).
  exists s1, s2. split; [exact Hrun|].
  split; [exact H1|]. split; [exact H2|]. split; [exact Hres|].
  split; [exact Herr|]. split; [exact Hctx | exact Hch].
Defined.

Lemma clone_failure_is_logged_and_skipped_witness :
  ∃ s s1,
    run Fixture.plain "pwd" [Dispatch; Advance 0]
      (initial Fixture.fresh [Fixture.svcB; Fixture.svcA]) = Some s ∧
    advance Fixture.plain "pwd" 0 s = Some s1 ∧
    results s1 = [] ∧
    trace s1 =
      [CloneCall 0 "/work/tmp/svc-b" "https://github.com/acme/svc-b.git" None;
       LogError "error cloning repository" "repository not found"] ∧
    groupErr s1 = None ∧ repoCh s1 = [Fixture.svcA].
Proof.
  eassert (run Fixture.plain "pwd" [Dispatch; Advance 0]
             (initial Fixture.fresh [Fixture.svcB; Fixture.svcA]) = Some _) as Hrun
    by (vm_compute; reflexivity).
  eassert (PlainCloneContext Fixture.fresh "/work/tmp/svc-b"
             "https://github.com/acme/svc-b.git" None = (_, Some _)) as Hclone
    by (vm_compute; reflexivity).
  eexists.
  destruct (clone_failure_is_logged_and_skipped Fixture.plain "pwd"
              Fixture.fresh [Fixture.svcB; Fixture.svcA] [Dispatch; Advance 0]
              _ 0%nat _ _ _ Hrun eq_refl eq_refl Hclone)
    as (s1 & Hadv & Hres & Htrace & Herr & _ & Hch & _).
  exists s1. split; [exact Hrun|].
  split; [exact Hadv|]. split; [exact Hres|]. split; [exact Htrace|].
  split; [exact Herr | exact Hch].
Defined.

(** C1 as stated fails: [svc-b] cannot be cloned, the stage runs to its
    end, and no result for [svc-b] has been sent. *)
Lemma clone_failure_emits_no_result :
  ∃ s,
    run Fixture.plain "pwd"
      [Dispatch; Advance 0; Advance 0;
       Dispatch; Advance 1; Advance 1; Advance 1; Advance 1]
      (initial Fixture.fresh [Fixture.svcB; Fixture.svcA]) = Some s ∧
    finished s ∧
    goroutines s !! 0%nat
    = Some {| repo := Fixture.svcB; phase := CloneFailed "repository not found" |} ∧
    results s =
      [{| Path := "/work/tmp/svc-a"; Command := "pwd";
          Stdout := "/work/tmp/svc-a
"; Stderr := ""; Error := None |}] ∧
    ¬ ∃ r, r ∈ results s ∧ Path r = "/work/tmp/svc-b".
Proof.
  eexists. split; [vm_compute; reflexivity|].
  split; [|split; [reflexivity|split; [reflexivity|]]].
  - split; [reflexivity|]. repeat constructor.
  - intros (r & Hr & Hpath). apply list_elem_of_singleton in Hr. by subst r.
Qed.

Lemma results_are_the_finished_closures_witness :
  ∃ s,
    run Fixture.plain "pwd"
      [Dispatch; Advance 0; Advance 0; Advance 0; Dispatch; Advance 1; Advance 1]
      (initial Fixture.warm [Fixture.svcA; Fixture.svcB]) = Some s ∧
    finished s ∧
    (length (results s)
     + length (filter (λ g, cloneFailed g = true) (goroutines s))
     = length (goroutines s))%nat.
Proof.
  eassert (run Fixture.plain "pwd"
             [Dispatch; Advance 0; Advance 0; Advance 0; Dispatch; Advance 1; Advance 1]
             (initial Fixture.warm [Fixture.svcA; Fixture.svcB]) = Some _) as Hrun
    by (vm_compute; reflexivity).
  eexists. split; [exact Hrun|].
  eassert (finished _) as Hfin; [|split; [exact Hfin|]].
  { split; [reflexivity|]. repeat constructor. }
  apply (results_are_the_finished_closures Fixture.plain "pwd" Fixture.warm
           [Fixture.svcA; Fixture.svcB]
           [Dispatch; Advance 0; Advance 0; Advance 0; Dispatch; Advance 1; Advance 1]
           _ Hrun).
  exact Hfin.
Defined.

(** C2 as stated fails: one repository is dispatched, its clone fails, the
    stage runs to its end, and no result has been sent. *)
Lemma dispatched_repository_without_result :
  ∃ s,
    run Fixture.plain "pwd" [Dispatch; Advance 0; Advance 0]
      (initial Fixture.fresh [Fixture.svcB]) = Some s ∧
    finished s ∧
    length (goroutines s) = 1%nat ∧
    length (results s) = 0%nat.
Proof.
  eexists. split; [vm_compute; reflexivity|]. split; [|split; reflexivity].
  split; [reflexivity|]. repeat constructor.
Qed.

Lemma concurrency_limit_bounds_closures_in_flight_witness :
  ∃ s,
    run (set_concurrency 2 Fixture.plain) "pwd"
      [Dispatch; Dispatch; Advance 0; Advance 1]
      (initial Fixture.warm [Fixture.svcA; Fixture.svcC; Fixture.svcB]) = Some s ∧
    running s = 2%nat ∧
    dispatch (set_concurrency 2 Fixture.plain) s = None ∧
    Z.of_nat (running s) ≤ 2 ∧ Z.of_nat (active s) ≤ 2.
Proof.
  eassert (run (set_concurrency 2 Fixture.plain) "pwd"
             [Dispatch; Dispatch; Advance 0; Advance 1]
             (initial Fixture.warm [Fixture.svcA; Fixture.svcC; Fixture.svcB])
           = Some _) as Hrun
    by (vm_compute; reflexivity).
  eexists. split; [exact Hrun|].
  split; [vm_compute; reflexivity|]. split; [vm_compute; reflexivity|].
  apply (concurrency_limit_bounds_closures_in_flight
           (set_concurrency 2 Fixture.plain) "pwd" Fixture.warm
           [Fixture.svcA; Fixture.svcC; Fixture.svcB]
           [Dispatch; Dispatch; Advance 0; Advance 1] _ Hrun).
  reflexivity.
Defined.

(** * Further properties *)

(** ** Repository Matcher *)

Section MatcherMore.
Context {lib : GoLib}.

Lemma anyTopic_mono (p : string → bool) (l l' : list string) :
  l ⊆ l' → anyTopic p l = true → anyTopic p l' = true.
Proof.
  intros Hsub (t & Ht & Hp)%anyTopic_true. apply anyTopic_true.
  exists t. split; [by apply Hsub | done].
Qed.

Lemma matchRepo_more_topics (rh : RepositoryExecutor) (r r' : Repository) :
  GetName r = GetName r' →
  Topics r ⊆ Topics r' →
  matchRepo rh r = true → matchRepo rh r' = true.
Proof.
  unfold matchRepo. intros <- Hsub.
  destruct (nameRegexp rh) as [np|]; [destruct (MatchString np (GetName r))|];
    simpl; try done.
  all: destruct (nameSet rh) as [ns|]; [destruct (bool_decide (GetName r ∈ ns))|];
    simpl; try done.
  all: destruct (topicRegexp rh) as [tp|];
    [destruct (anyTopic (MatchString tp) (Topics r)) eqn:Ht;
     [rewrite (anyTopic_mono _ _ _ Hsub Ht)|]|]; simpl; try done.
  all: destruct (topicSet rh) as [ts|];
    [destruct (anyTopic (λ topic, bool_decide (topic ∈ ts)) (Topics r)) eqn:Hq;
     [rewrite (anyTopic_mono _ _ _ Hsub Hq)|]|]; simpl; done.
Qed.

(** X1. Topics only help, and only as a set. Between two repositories of
    the same name, a missing name counting as the empty one, the one with
    more topics matches whenever the other does; so two with the same
    topics in any order and with any repetitions get the same answer. *)
Theorem matchRepo_reads_name_and_topic_set
  (rh : RepositoryExecutor) (r r' : Repository) :
  GetName r = GetName r' →
  (Topics r ⊆ Topics r' → matchRepo rh r = true → matchRepo rh r' = true) ∧
  ((∀ topic, topic ∈ Topics r ↔ topic ∈ Topics r') →
   matchRepo rh r = matchRepo rh r').
Proof.
  intros Hname. split; [by apply matchRepo_more_topics|]. intros Htopics.
  assert (Topics r ⊆ Topics r') as H1 by (intros t; apply Htopics).
  assert (Topics r' ⊆ Topics r) as H2 by (intros t; apply Htopics).
  destruct (matchRepo rh r) eqn:Hr, (matchRepo rh r') eqn:Hr'; try done.
  - by rewrite (matchRepo_more_topics rh r r' Hname H1 Hr) in Hr'.
  - by rewrite (matchRepo_more_topics rh r' r (eq_sym Hname) H2 Hr') in Hr.
Qed.

(** Each list filter is one factor of the answer. *)
Lemma matchRepo_nameSet (rh : RepositoryExecutor) (r : Repository) :
  matchRepo rh r =
  match nameSet rh with
  | Some s => bool_decide (GetName r ∈ s)
  | None => true
  end && matchRepo (set_nameSet None rh) r.
Proof.
  unfold matchRepo. simpl.
  destruct (nameRegexp rh) as [np|]; [destruct (MatchString np (GetName r))|];
    simpl; rewrite ?andb_false_r; try done.
  all: by destruct (nameSet rh) as [ns|]; [destruct (bool_decide (GetName r ∈ ns))|].
Qed.

Lemma matchRepo_topicSet (rh : RepositoryExecutor) (r : Repository) :
  matchRepo rh r =
  match topicSet rh with
  | Some s => anyTopic (λ topic, bool_decide (topic ∈ s)) (Topics r)
  | None => true
  end && matchRepo (set_topicSet None rh) r.
Proof.
  unfold matchRepo. simpl.
  destruct (nameRegexp rh) as [np|]; [destruct (MatchString np (GetName r))|];
    simpl; rewrite ?andb_false_r; try done.
  all: destruct (nameSet rh) as [ns|]; [destruct (bool_decide (GetName r ∈ ns))|];
    simpl; rewrite ?andb_false_r; try done.
  all: destruct (topicRegexp rh) as [tp|];
    [destruct (anyTopic (MatchString tp) (Topics r))|];
    simpl; rewrite ?andb_false_r; try done.
  all: by destruct (topicSet rh) as [ts|]; [destruct (anyTopic _ (Topics r))|].
Qed.

(** X2. A name list adds exactly one condition, that the name is in the
    list, and replaces the name list that was there; a topic list adds
    that some topic is in the list, and replaces the topic list that was
    there. The other filters stay. *)
Theorem list_options_filter_by_membership
  (fre : RepositoryExecutor) (names topics : list string) (r : Repository) :
  (WithNameList names fre).2 = None ∧
  (matchRepo (WithNameList names fre).1 r = true ↔
   GetName r ∈ names ∧ matchRepo (set_nameSet None fre) r = true) ∧
  (WithTopicList topics fre).2 = None ∧
  (matchRepo (WithTopicList topics fre).1 r = true ↔
   (∃ topic, topic ∈ Topics r ∧ topic ∈ topics) ∧
   matchRepo (set_topicSet None fre) r = true).
Proof.
  split; [done|]. split; [|split; [done|]].
  - rewrite matchRepo_nameSet. simpl.
    change (set_nameSet None (set_nameSet _ fre)) with (set_nameSet None fre).
    rewrite andb_true_iff, bool_decide_eq_true, elem_of_list_to_set. done.
  - rewrite matchRepo_topicSet. simpl.
    change (set_topicSet None (set_topicSet _ fre)) with (set_topicSet None fre).
    rewrite andb_true_iff, anyTopic_true.
    split; intros ((t & Ht & Hin) & Hrest); (split; [|done]); exists t;
      (split; [done|]).
    + apply bool_decide_eq_true in Hin. by rewrite elem_of_list_to_set in Hin.
    + apply bool_decide_eq_true. by rewrite elem_of_list_to_set.
Qed.

End MatcherMore.

(** ** Configuration *)

Section BuilderMore.
Context {lib : GoLib}.

Ltac open_last getwd opts H :=
  unfold NewRepositoryExecutor in H;
  destruct getwd as [?|?]; [done|];
  rewrite applyOptions_app in H;
  destruct (applyOptions opts _) as [? [?|]]; [done|];
  simpl in H.

(** X3. The last option decides its field, whatever the options before it
    did to it. *)
Theorem last_option_decides_its_field
  (getwd : error + string) (opts : list RepositoryExecutorOption)
  (exec : RepositoryExecutor) :
  (∀ o, NewRepositoryExecutor getwd (opts ++ [WithOrg o]) = (Some exec, None) →
        org exec = Some o) ∧
  (∀ u, NewRepositoryExecutor getwd (opts ++ [WithUser u]) = (Some exec, None) →
        user exec = Some u) ∧
  (∀ n, NewRepositoryExecutor getwd (opts ++ [WithConcurrency n]) = (Some exec, None) →
        concurrency exec = n) ∧
  (∀ d, NewRepositoryExecutor getwd (opts ++ [WithTmpDir d]) = (Some exec, None) →
        tmpDir exec = d) ∧
  (∀ p, NewRepositoryExecutor getwd (opts ++ [WithShellPath p]) = (Some exec, None) →
        shellPath exec = p) ∧
  (∀ b, NewRepositoryExecutor getwd (opts ++ [WithCleanup b]) = (Some exec, None) →
        cleanup exec = b) ∧
  (∀ b, NewRepositoryExecutor getwd (opts ++ [WithOverwrite b]) = (Some exec, None) →
        overwrite exec = b) ∧
  (∀ f, NewRepositoryExecutor getwd (opts ++ [WithOutputFormat f]) = (Some exec, None) →
        outputFormat exec = f) ∧
  (∀ u t, NewRepositoryExecutor getwd (opts ++ [WithUserAuth u t]) = (Some exec, None) →
          authUser exec = Some u ∧ authToken exec = Some t) ∧
  (∀ l, NewRepositoryExecutor getwd (opts ++ [WithNameList l]) = (Some exec, None) →
        nameSet exec = Some (list_to_set l)) ∧
  (∀ l, NewRepositoryExecutor getwd (opts ++ [WithTopicList l]) = (Some exec, None) →
        topicSet exec = Some (list_to_set l)) ∧
  (∀ e, NewRepositoryExecutor getwd (opts ++ [WithNameRegexp e]) = (Some exec, None) →
        ∃ p, Compile e = inr p ∧ nameRegexp exec = Some p) ∧
  (∀ e, NewRepositoryExecutor getwd (opts ++ [WithTopicRegexp e]) = (Some exec, None) →
        ∃ p, Compile e = inr p ∧ topicRegexp exec = Some p).
Proof.
  repeat match goal with |- _ ∧ _ => split end.
  1-8,10-11: intros v H; open_last getwd opts H; by injection H as <-.
  - intros u t H. open_last getwd opts H. by injection H as <-.
  - intros e H. open_last getwd opts H. unfold WithNameRegexp in H.
    destruct (Compile e) as [?|p]; [done|]. injection H as <-. by exists p.
  - intros e H. open_last getwd opts H. unfold WithTopicRegexp in H.
    destruct (Compile e) as [?|p]; [done|]. injection H as <-. by exists p.
Qed.

End BuilderMore.

(** ** Command-line front end *)

Lemma splitLines_cons (s : string) : ∃ line lines, splitLines s = line :: lines.
Proof.
  destruct s as [|c s]; simpl; [by eexists _, _|].
  case_bool_decide; [by eexists _, _|].
  destruct (splitLines s); by eexists _, _.
Qed.

Lemma append_empty_r (s : string) : s +:+ "" = s.
Proof.
  induction s as [|c s IH]; [done|].
  change (String c s +:+ "") with (String c (s +:+ "")). by rewrite IH.
Qed.

Lemma splitLines_String (c : ascii) (s : string) :
  splitLines (String c s) =
  if bool_decide (c = "010"%char) then "" :: splitLines s
  else match splitLines s with
       | line :: lines => String c line :: lines
       | [] => [String c ""]
       end.
Proof. reflexivity. Qed.

Lemma joinLines_push (c : ascii) (line : string) (lines : list string) :
  joinLines (String c line :: lines) = String c (joinLines (line :: lines)).
Proof. by destruct lines. Qed.

Lemma splitLines_push (c : ascii) (s : string) :
  c ≠ "010"%char →
  ∃ line lines, splitLines s = line :: lines ∧
                splitLines (String c s) = String c line :: lines.
Proof.
  intros Hc. destruct (splitLines_cons s) as (line & lines & Hs).
  exists line, lines. split; [done|].
  by rewrite splitLines_String, bool_decide_false, Hs.
Qed.

Lemma splitLines_line (line rest : string) :
  hasNewline line = false →
  ∃ l ls, splitLines rest = l :: ls ∧
          splitLines (line +:+ rest) = (line +:+ l) :: ls.
Proof.
  intros Hline. induction line as [|c line IH].
  - destruct (splitLines_cons rest) as (l & ls & Hs). by exists l, ls.
  - simpl in Hline.
    apply orb_false_iff in Hline as [Hc%bool_decide_eq_false Hline].
    destruct (IH Hline) as (l & ls & Hrest & Hs). exists l, ls.
    split; [done|].
    change (String c line +:+ rest) with (String c (line +:+ rest)).
    by rewrite splitLines_String, bool_decide_false, Hs.
Qed.

(** X4. [splitLines] cuts a file at its newlines and nowhere else: the
    lines, of which there is always at least one, hold no newline, and
    joined by newlines they give the file back; and lines without newlines
    that are joined and cut again come back as they were. *)
Theorem splitLines_joinLines (s : string) (lines : list string) :
  joinLines (splitLines s) = s ∧
  Forall (λ line, hasNewline line = false) (splitLines s) ∧
  splitLines s ≠ [] ∧
  (lines ≠ [] → Forall (λ line, hasNewline line = false) lines →
   splitLines (joinLines lines) = lines).
Proof.
  split; [|split; [|split]].
  - induction s as [|c s IH]; [done|].
    rewrite splitLines_String. case_bool_decide as Hc.
    + subst c. destruct (splitLines_cons s) as (l & ls & Hs).
      rewrite Hs in IH |- *.
      change (joinLines ("" :: l :: ls))
        with (String "010"%char (joinLines (l :: ls))).
      by rewrite IH.
    + destruct (splitLines_cons s) as (l & ls & Hs). rewrite Hs in IH |- *.
      by rewrite joinLines_push, IH.
  - induction s as [|c s IH]; [by repeat constructor|].
    rewrite splitLines_String. case_bool_decide as Hc; [by constructor|].
    destruct (splitLines s) as [|l ls].
    + constructor; [|done]. simpl. by rewrite bool_decide_false.
    + apply Forall_cons in IH as [Hl Hls]. constructor; [|done].
      simpl. by rewrite bool_decide_false.
  - by destruct (splitLines_cons s) as (l & ls & ->).
  - intros Hne Hall. induction Hall as [|l ls Hl Hls IH]; [done|].
    destruct ls as [|l' ls].
    + destruct (splitLines_line l "" Hl) as (x & xs & Hx & Hs).
      simpl in Hx. injection Hx as <- <-.
      by rewrite !append_empty_r in Hs.
    + specialize (IH ltac:(done)).
      change (joinLines (l :: l' :: ls))
        with (l +:+ String "010"%char (joinLines (l' :: ls))).
      destruct (splitLines_line l (String "010"%char (joinLines (l' :: ls))) Hl)
        as (x & xs & Hx & Hs).
      rewrite splitLines_String, bool_decide_true, IH in Hx by done.
      injection Hx as <- <-. by rewrite Hs, append_empty_r.
Qed.

Section FrontEndMore.
Context {lib : GoLib}.

(** What the executor handed to [Go] is made of. *)
Lemma RunWithArgs_handler (env : Env) (args : Args.t)
  (handler : RepositoryExecutor) (cmd : string) :
  RunWithArgs env args = inr (handler, cmd) →
  cmd = Args.Command args ∧ cmd ≠ "" ∧
  concurrency handler = Args.NThreads args ∧
  tmpDir handler = Args.TmpDir args ∧
  shellPath handler = Args.Shell args ∧
  cleanup handler = Args.Cleanup args ∧
  overwrite handler = Args.Overwrite args ∧
  org handler = Args.Org args ∧
  user handler = Args.User args ∧
  outputFormat handler
  = (if Args.Json args then JsonOutputFormat else ConsoleOutputFormat) ∧
  logger handler
  = (if Args.Debug args then DevelopmentLogger else ProductionLogger) ∧
  client handler = {| clientToken := Args.AuthToken args |} ∧
  authUser handler
  = match Args.AuthUser args with Some _ => Args.AuthToken args | None => None end ∧
  authToken handler
  = match Args.AuthUser args with Some _ => Args.AuthToken args | None => None end ∧
  nameRegexp handler
  = match Args.NameExp args with
    | Some e => match Compile e with inr p => Some p | inl _ => None end
    | None => None
    end ∧
  topicRegexp handler
  = match Args.TopicExp args with
    | Some e => match Compile e with inr p => Some p | inl _ => None end
    | None => None
    end ∧
  nameSet handler
  = match Args.NameList args with
    | Some file =>
        match ReadFile env file with
        | inr bytes => Some (list_to_set (splitLines bytes))
        | inl _ => None
        end
    | None => None
    end ∧
  topicSet handler
  = match Args.TopicList args with
    | Some file =>
        match ReadFile env file with
        | inr bytes => Some (list_to_set (splitLines bytes))
        | inl _ => None
        end
    | None => None
    end.
Proof.
  intros Hrun.
  destruct args as [c au at' o us ne nl te tl sh td cl ow nt js db].
  unfold RunWithArgs, buildOptions, appendIf, appendFile, NewRepositoryExecutor,
    WithNameRegexp, WithTopicRegexp in Hrun.
  simpl in *.
  repeat (case_match; simplify_eq; simpl in * ).
  all: repeat split; try done.
  all: by intros ->.
Qed.

(** X5. On the way to [Go] every execution argument reaches its field:
    the command, the number of threads, the directory, the shell, the two
    removal flags, the owner and the output format. *)
Theorem RunWithArgs_passes_arguments (env : Env) (args : Args.t)
  (handler : RepositoryExecutor) (cmd : string) :
  RunWithArgs env args = inr (handler, cmd) →
  cmd = Args.Command args ∧ cmd ≠ "" ∧
  concurrency handler = Args.NThreads args ∧
  tmpDir handler = Args.TmpDir args ∧
  shellPath handler = Args.Shell args ∧
  cleanup handler = Args.Cleanup args ∧
  overwrite handler = Args.Overwrite args ∧
  org handler = Args.Org args ∧
  user handler = Args.User args ∧
  outputFormat handler
  = (if Args.Json args then JsonOutputFormat else ConsoleOutputFormat).
Proof.
  intros Hrun.
  destruct (RunWithArgs_handler env args handler cmd Hrun)
    as (? & ? & ? & ? & ? & ? & ? & ? & ? & ? & _).
  by repeat split.
Qed.

(** X6. Credentials need both halves. With the auth user or the auth
    token missing, the API client still carries whatever token was given,
    but the executor has no credentials: clones are unauthenticated and
    discovery never lists the authenticated caller. *)
Theorem RunWithArgs_half_credentials (env : Env) (args : Args.t)
  (handler : RepositoryExecutor) (cmd : string) :
  Args.AuthUser args = None ∨ Args.AuthToken args = None →
  RunWithArgs env args = inr (handler, cmd) →
  client handler = {| clientToken := Args.AuthToken args |} ∧
  cloneAuth handler = None ∧
  getRepositories handler ≠ inr ForAuthenticatedUser.
Proof.
  intros Hhalf Hrun.
  destruct (RunWithArgs_handler env args handler cmd Hrun)
    as (_ & _ & _ & _ & _ & _ & _ & _ & _ & _ & _ & Hc & Hu & Ht & _).
  split; [done|].
  assert (authUser handler = None) as Hnone.
  { rewrite Hu. destruct Hhalf as [-> | ->]; [done|]. by destruct (Args.AuthUser args). }
  unfold cloneAuth, getRepositories. rewrite Hnone. split; [done|].
  destruct (org handler); [done|]. by destruct (user handler).
Qed.

(** X7. An organization on the command line wins: discovery lists the
    organization, whatever user and credentials are given with it. *)
Theorem RunWithArgs_org_wins (env : Env) (args : Args.t) (o : string)
  (handler : RepositoryExecutor) (cmd : string) :
  Args.Org args = Some o →
  RunWithArgs env args = inr (handler, cmd) →
  getRepositories handler = inr (ForOrg o).
Proof.
  intros Ho Hrun.
  destruct (RunWithArgs_handler env args handler cmd Hrun)
    as (_ & _ & _ & _ & _ & _ & _ & Horg & _).
  unfold getRepositories. by rewrite Horg, Ho.
Qed.

(** X8. A list file is read whole and cut at its newlines: with a name
    list only repositories named by one of its lines match, and with a
    topic list only repositories one of whose topics is one of its lines. *)
Theorem RunWithArgs_list_files (env : Env) (args : Args.t)
  (handler : RepositoryExecutor) (cmd : string) :
  RunWithArgs env args = inr (handler, cmd) →
  (∀ file, Args.NameList args = Some file →
     ∃ bytes, ReadFile env file = inr bytes ∧
       ∀ r, matchRepo handler r = true → GetName r ∈ splitLines bytes) ∧
  (∀ file, Args.TopicList args = Some file →
     ∃ bytes, ReadFile env file = inr bytes ∧
       ∀ r, matchRepo handler r = true →
            ∃ topic, topic ∈ Topics r ∧ topic ∈ splitLines bytes).
Proof.
  intros Hrun.
  pose proof (RunWithArgs_handler env args handler cmd Hrun)
    as (_ & _ & _ & _ & _ & _ & _ & _ & _ & _ & _ & _ & _ & _ & _ & _ & Hn & Ht).
  unfold RunWithArgs, buildOptions, appendFile in Hrun.
  split; intros file Hfile; rewrite Hfile in *.
  - destruct (ReadFile env file) as [e|bytes] eqn:Hread.
    { repeat (case_match; simplify_eq). }
    exists bytes. split; [done|]. intros r Hr.
    rewrite matchRepo_nameSet, Hn in Hr.
    apply andb_true_iff in Hr as [Hin%bool_decide_eq_true _].
    by rewrite elem_of_list_to_set in Hin.
  - destruct (ReadFile env file) as [e|bytes] eqn:Hread.
    { repeat (case_match; simplify_eq). }
    exists bytes. split; [done|]. intros r Hr.
    rewrite matchRepo_topicSet, Ht in Hr.
    apply andb_true_iff in Hr as [(t & Ht1 & Hin%bool_decide_eq_true)%anyTopic_true _].
    exists t. split; [done|]. by rewrite elem_of_list_to_set in Hin.
Qed.

Lemma buildOptions_withCommand (env : Env) (l : Logger) (cmd : string)
  (args : Args.t) :
  buildOptions env l (withCommand cmd args) = buildOptions env l args.
Proof. reflexivity. Qed.

(** X9. The command is looked at last. Arguments that fail with some
    command fail in the same way without one; arguments that reach [Go]
    with a command fail without one for want of a command, and for
    nothing else. *)
Theorem RunWithArgs_checks_command_last (env : Env) (args : Args.t) (cmd : string) :
  cmd ≠ "" →
  match RunWithArgs env (withCommand cmd args) with
  | inl e => RunWithArgs env (withCommand "" args) = inl e
  | inr (handler, c) =>
      c = cmd ∧
      RunWithArgs env (withCommand "" args) = inl "no command provided"
  end.
Proof.
  intros Hcmd. unfold RunWithArgs.
  change (Args.Debug (withCommand cmd args)) with (Args.Debug args).
  change (Args.Debug (withCommand "" args)) with (Args.Debug args).
  change (Args.Command (withCommand cmd args)) with cmd.
  change (Args.Command (withCommand "" args)) with "".
  destruct (Args.Debug args);
    [destruct (NewDevelopment env) | destruct (NewProduction env)];
    cbn beta iota; try done.
  all: rewrite !buildOptions_withCommand.
  all: destruct (buildOptions env _ args) as [e|opts]; [done|].
  all: destruct (NewRepositoryExecutor (Getwd env) opts) as [[h|] [e|]]; try done.
  all: by destruct cmd.
Qed.


End FrontEndMore.

(** ** Repository Discoverer: the listing loops *)

Section DiscovererMore.
Context {lib : GoLib} {gh : GitHub}.
Variable rh : RepositoryExecutor.

Lemma filter_satisfies {A : Type} (P : A → Prop) `{!∀ x, Decision (P x)}
  (l : list A) : Forall P (filter P l).
Proof. apply Forall_forall. by intros x [? _]%list_elem_of_filter. Qed.

Lemma listPages_sound fuel call remote opt remote' out err :
  listPages rh fuel call remote opt = Some (remote', out, err) →
  Forall (λ r, matchRepo rh r = true) out.
Proof.
  revert remote opt remote' out err.
  induction fuel as [|fuel IH]; intros remote opt remote' out err H; [done|].
  simpl in H. destruct (ctxErr remote); [by simplify_eq|].
  destruct (call remote opt) as [r1 [e|[repos next]]]; [by simplify_eq|].
  destruct (next =? 0).
  - simplify_eq. by apply filter_satisfies.
  - destruct (listPages rh fuel call r1 _) as [[[r2 more] e]|] eqn:Hrec; [|done].
    simplify_eq. apply Forall_app. split; [by apply filter_satisfies|].
    by eapply IH.
Qed.

(** A loop that ends within its fuel ends in the same way with more. *)
Lemma listPages_fuel fuel extra call remote opt res :
  listPages rh fuel call remote opt = Some res →
  listPages rh (fuel + extra) call remote opt = Some res.
Proof.
  revert remote opt res.
  induction fuel as [|fuel IH]; intros remote opt res H; [done|].
  simpl in *. destruct (ctxErr remote); [done|].
  destruct (call remote opt) as [r1 [e|[repos next]]]; [done|].
  destruct (next =? 0); [done|].
  destruct (listPages rh fuel call r1 _) as [[[r2 more] e]|] eqn:Hrec; [|done].
  by rewrite (IH _ _ _ Hrec).
Qed.

(** X11. Whatever the remote answers and however discovery ends, with an
    error or without, every repository it has sent matches the filters. *)
Theorem discover_sends_only_matches
  (fuel : nat) (remote remote' : Remote) (out : list Repository)
  (err : option error) :
  discover rh fuel remote = Some (remote', out, err) →
  Forall (λ r, matchRepo rh r = true) out.
Proof.
  unfold discover, getRepositoriesForOrg, getRepositoriesForUser,
    getRepositoriesForAuthenticatedUser.
  destruct (getRepositories rh) as [e|[o| |u]]; intros H.
  - by simplify_eq.
  - by eapply listPages_sound.
  - by eapply listPages_sound.
  - by eapply listPages_sound.
Qed.

Lemma listPages_from_page call pages remote :
  servesPages call pages → ctxErr remote = None →
  ∀ d n opt fuel,
    pageNumber (Page opt) = n → (length pages - n = d)%nat → (d < fuel)%nat →
    listPages rh fuel call remote opt =
    Some (remote,
          filter (λ r, matchRepo rh r = true) (concat (drop (n - 1) pages)),
          None).
Proof.
  intros Hserve Hctx. induction d as [|d IH]; intros n opt fuel Hn Hd Hfuel.
  - destruct fuel as [|fuel]; [lia|]. simpl. rewrite Hctx, Hserve, Hn.
    assert (1 ≤ n)%nat as H1 by (unfold pageNumber in Hn; lia).
    rewrite (proj2 (Nat.ltb_ge n (length pages))) by lia. simpl.
    destruct (pages !! (n - 1)%nat) as [page|] eqn:Hpage.
    + rewrite (drop_S _ _ _ Hpage). simpl.
      rewrite (drop_ge pages (S (n - 1))) by lia. simpl. by rewrite app_nil_r.
    + apply lookup_ge_None in Hpage. by rewrite drop_ge.
  - destruct fuel as [|fuel]; [lia|]. simpl. rewrite Hctx, Hserve, Hn.
    assert (1 ≤ n)%nat as H1 by (unfold pageNumber in Hn; lia).
    rewrite (proj2 (Nat.ltb_lt n (length pages))) by lia.
    rewrite (proj2 (Z.eqb_neq _ 0)) by lia.
    rewrite (IH (S n)); [|simpl; unfold pageNumber; lia | lia | lia].
    destruct (pages !! (n - 1)%nat) as [page|] eqn:Hpage.
    + rewrite (drop_S _ _ _ Hpage). simpl. rewrite filter_app.
      by replace (S (n - 1)) with (S n - 1)%nat by lia.
    + apply lookup_ge_None in Hpage. lia.
Qed.

(** X12. Against a remote that serves its repositories in pages, with page
    numbers from 1 and no next page after the last, and with the context
    not cancelled, the loop of each listing function ends and sends
    exactly the repositories that match, page after page in the order
    served; one turn of the loop per page is fuel enough. *)
Theorem listPages_sends_every_match
  (call : Remote → ListOptions → Remote * PageResult)
  (pages : list (list Repository)) (remote : Remote) (fuel : nat) :
  servesPages call pages →
  ctxErr remote = None →
  (1 ≤ fuel)%nat → (length pages ≤ fuel)%nat →
  listPages rh fuel call remote firstPage =
  Some (remote, filter (λ r, matchRepo rh r = true) (concat pages), None).
Proof.
  intros Hserve Hctx H1 Hfuel.
  by rewrite (listPages_from_page call pages remote Hserve Hctx
                (length pages - 1) 1 firstPage fuel) by (done || lia).
Qed.


End DiscovererMore.

(** ** Result Reporter *)

Section ReporterMore.
Context {lib : GoLib} {js : Json}.
Variable rh : RepositoryExecutor.

(** X14. A result is printed exactly when the context is not done as it
    arrives and the output format is the console one, or the JSON one and
    the result marshals; every other result is dropped with a log line.
    The loop handles each result once, in arrival order. *)
Theorem report_prints_exactly_when
  (ctxIsDone : bool) (result : executionResult)
  (arrivals : list (bool * executionResult)) :
  (printed (report rh ctxIsDone result) = true ↔
   ctxIsDone = false ∧
   (outputFormat rh = ConsoleOutputFormat ∨
    outputFormat rh = JsonOutputFormat ∧ ∃ str, Marshal result = inr str)) ∧
  (ctxIsDone = false → outputFormat rh = ConsoleOutputFormat →
   report rh ctxIsDone result = Println (String_ result)) ∧
  (∀ str, ctxIsDone = false → outputFormat rh = JsonOutputFormat →
          Marshal result = inr str →
          report rh ctxIsDone result = Println str) ∧
  length (reporter rh arrivals) = length arrivals.
Proof.
  unfold report, JsonString, ConsoleOutputFormat, JsonOutputFormat.
  split; [|split; [|split]].
  - destruct ctxIsDone; simpl; [split; [done | by intros (? & _)]|].
    destruct (outputFormat rh =? 1) eqn:Hj.
    + apply Z.eqb_eq in Hj. destruct (Marshal result) as [e|str] eqn:Hm; simpl.
      * split; [done|]. intros (_ & [? | (_ & ? & ?)]); [lia | done].
      * split; [|done]. intros _. split; [done|]. right. split; [done|]. by exists str.
    + apply Z.eqb_neq in Hj. destruct (outputFormat rh =? 0) eqn:Hc.
      * apply Z.eqb_eq in Hc. simpl. split; [|done]. intros _. split; [done|]. by left.
      * apply Z.eqb_neq in Hc. simpl. split; [done|].
        intros (_ & [? | (? & _)]); done.
  - intros -> ->. done.
  - intros str -> -> ->. done.
  - unfold reporter. by rewrite length_fmap.
Qed.

End ReporterMore.

Lemma hasNewline_app (s t : string) :
  hasNewline (s +:+ t) = hasNewline s || hasNewline t.
Proof.
  induction s as [|c s IH]; [done|].
  change (String c s +:+ t) with (String c (s +:+ t)). simpl.
  by rewrite IH, orb_assoc.
Qed.

Lemma splitLines_newline (line rest : string) :
  hasNewline line = false →
  splitLines (line +:+ newline +:+ rest) = line :: splitLines rest.
Proof.
  intros Hline.
  destruct (splitLines_line line (newline +:+ rest) Hline) as (l & ls & Hl & Hs).
  change (newline +:+ rest) with (String "010"%char rest) in *.
  rewrite splitLines_String, bool_decide_true in Hl by done.
  injection Hl as <- <-. by rewrite Hs, append_empty_r.
Qed.

Lemma append_assoc (s t u : string) : (s +:+ t) +:+ u = s +:+ (t +:+ u).
Proof.
  induction s as [|c s IH]; [done|].
  change (String c s +:+ t) with (String c (s +:+ t)).
  change (String c (s +:+ t) +:+ u) with (String c ((s +:+ t) +:+ u)).
  by rewrite IH.
Qed.

(** X15. The console block of a result reads back line by line: when no
    field holds a newline, it is the header line with the path and the
    command, the line [STDERR:] and the captured stderr, the line
    [STDOUT:] and the captured stdout, and a line with the error when
    there is one, each ended by a newline. *)
Theorem String_lines (er : executionResult) :
  hasNewline (Path er) = false → hasNewline (Command er) = false →
  hasNewline (Stderr er) = false → hasNewline (Stdout er) = false →
  match Error er with Some e => hasNewline e = false | None => True end →
  splitLines (String_ er) =
  [">>>>> " +:+ Path er +:+ ": " +:+ Command er; "STDERR:"; Stderr er;
   "STDOUT:"; Stdout er]
  ++ match Error er with Some e => ["error: " +:+ e] | None => [] end
  ++ [""].
Proof.
  intros Hp Hc He Ho Herr.
  set (header := ">>>>> " +:+ Path er +:+ ": " +:+ Command er).
  set (tail := match Error er with
               | Some e => "error: " +:+ e +:+ newline
               | None => ""
               end).
  assert (String_ er =
          header +:+ newline +:+ "STDERR:" +:+ newline +:+ Stderr er +:+ newline
          +:+ "STDOUT:" +:+ newline +:+ Stdout er +:+ newline +:+ tail) as ->.
  { unfold String_, header. fold tail. by rewrite !append_assoc. }
  assert (hasNewline header = false) as Hh
    by (unfold header; rewrite !hasNewline_app, Hp, Hc; done).
  clearbody header.
  rewrite !splitLines_newline by done.
  unfold tail. destruct (Error er) as [e|]; [|done].
  replace ("error: " +:+ e +:+ newline) with (("error: " +:+ e) +:+ newline +:+ "")
    by (by rewrite append_assoc, append_empty_r).
  rewrite splitLines_newline; [done|]. by rewrite hasNewline_app, Herr.
Qed.

(** ** Work Coordinator, continued *)

Lemma filter_absent_all {A : Type} (P : A → Prop) `{!∀ x, Decision (P x)}
  (l : list A) : Forall (λ x, ¬ P x) l → filter P l = [].
Proof.
  induction 1 as [|x l Hx _ IH]; [done|].
  by rewrite filter_cons, decide_False.
Qed.

Section CoordinatorMore.
Context {lib : GoLib} {os : OS}.
Variable rh : RepositoryExecutor.
Variable command : string.

Lemma active_zero_returned (s : State) :
  active s = 0%nat → Forall (λ g, returned (phase g) = true) (goroutines s).
Proof.
  unfold active. intros H. apply Forall_forall. intros g Hg.
  destruct (returned (phase g)) eqn:Hr; [done|].
  assert (g ∈ filter (λ g, returned (phase g) = false) (goroutines s)) as Hin
    by (by apply list_elem_of_filter).
  apply length_zero_iff_nil in H. rewrite H in Hin. by apply elem_of_nil in Hin.
Qed.

(** X16. A limit of zero starts nothing: no closure, no clone, no result,
    and the world is left as it was; the repositories stay queued for as
    long as the context is not cancelled. *)
Theorem zero_limit_starts_nothing
  (w : World) (repos : list Repository) (schedule : list Action) (s : State) :
  concurrency rh = 0 →
  run rh command schedule (initial w repos) = Some s →
  goroutines s = [] ∧ results s = [] ∧ world s = w ∧
  (ctxDone s = false → repoCh s = repos).
Proof.
  intros Hzero Hrun.
  refine (run_invariant rh command
            (λ s, goroutines s = [] ∧ results s = [] ∧ world s = w ∧
                  (ctxDone s = false → repoCh s = repos))
            _ schedule _ s Hrun _); [|done].
  clear Hrun. intros a s1 s2 Hstep (Hg & Hr & Hw & Hq).
  destruct a as [|g|]; simpl in Hstep.
  - apply dispatch_Some in Hstep
      as (r & rest & _ & _ & Hw' & Hc' & _ & Hr'
          & [(Hc & Hg' & _) | (_ & Hfree & _)]).
    + rewrite Hg', Hr', Hw', Hc', Hc. done.
    + unfold slotFree, active in Hfree. rewrite Hzero, Hg in Hfree. done.
  - unfold advance in Hstep. by rewrite Hg in Hstep.
  - injection Hstep as <-. done.
Qed.

(** X17. With a limit of one the run is sequential: at most the closure
    started last is still at work, and the results arrive in the order in
    which their repositories were dispatched. *)
Theorem limit_one_keeps_order
  (w : World) (repos : list Repository) (schedule : list Action) (s : State) :
  concurrency rh = 1 →
  run rh command schedule (initial w repos) = Some s →
  results s = omap sent (goroutines s) ∧
  (∀ i gr, goroutines s !! i = Some gr → (S i < length (goroutines s))%nat →
           returned (phase gr) = true).
Proof.
  intros Hone Hrun.
  refine (run_invariant rh command
            (λ s, results s = omap sent (goroutines s) ∧ oneAtATime s)
            _ schedule _ s Hrun _).
  2:{ split; [done|]. intros i gr Hi. simpl in Hi. by rewrite lookup_nil in Hi. }
  clear Hrun. intros a s1 s2 Hstep (Hres & Hseq).
  destruct a as [|g|]; simpl in Hstep.
  - apply dispatch_Some in Hstep
      as (r & rest & _ & _ & _ & _ & _ & Hr'
          & [(_ & Hg' & _) | (_ & Hfree & _ & Hg')]).
    + split; [by rewrite Hr', Hg'|]. unfold oneAtATime. by rewrite Hg'.
    + split.
      * rewrite Hr', Hg', omap_app. simpl. by rewrite app_nil_r.
      * unfold slotFree in Hfree. rewrite Hone in Hfree. simpl in Hfree.
        apply Z.ltb_lt in Hfree.
        assert (active s1 = 0%nat) as Hact by lia.
        apply active_zero_returned in Hact.
        unfold oneAtATime. rewrite Hg', length_app. simpl.
        intros i gr Hi Hlt.
        rewrite lookup_app_l in Hi by lia.
        rewrite Forall_forall in Hact. apply Hact.
        by eapply list_elem_of_lookup_2.
  - apply advance_Some in Hstep as (gr & w' & p' & out & evs & Hg & Hc & ->).
    pose proof (closureStep_not_returned _ _ _ _ _ _ _ Hc) as Hnot.
    assert (S g = length (goroutines s1)) as Hlast.
    { pose proof (lookup_lt_Some _ _ _ Hg).
      destruct (decide (S g < length (goroutines s1))%nat) as [Hlt|]; [|lia].
      by rewrite (Hseq g gr Hg Hlt) in Hnot. }
    apply closureStep_results in Hc as (Hold & ->). simpl.
    assert (goroutines s1 = take g (goroutines s1) ++ [gr]) as Hsplit.
    { rewrite <- (take_drop_middle _ _ _ Hg) at 1.
      by rewrite drop_ge by lia. }
    split.
    + rewrite Hres, Hsplit at 1. rewrite Hsplit at 2.
      rewrite insert_app_r_alt by (rewrite length_take; lia).
      rewrite length_take, Nat.min_l, Nat.sub_diag by lia. simpl.
      rewrite !omap_app. simpl.
      destruct gr as [r p]. simpl in *. rewrite Hold. simpl.
      by rewrite app_nil_r.
    + unfold oneAtATime. simpl. rewrite length_insert. intros i gi Hi Hlt.
      rewrite list_lookup_insert_ne in Hi by lia. by eapply Hseq.
  - injection Hstep as <-. done.
Qed.


Lemma closureStep_holdsOwn g r p w w' p' out evs :
  closureStep rh command g r p w = Some (w', p', out, evs) →
  holdsOwn rh command {| repo := r; phase := p |} →
  holdsOwn rh command {| repo := r; phase := p' |}.
Proof.
  unfold closureStep, holdsOwn, held. intros H.
  destruct p; simpl in *; repeat case_match; by simplify_eq.
Qed.

(** X19. Every result carries the command of the run and the directory of
    one of the discovered repositories, which is the repository of the
    closure that sent it. *)
Theorem results_name_command_and_directory
  (w : World) (repos : list Repository) (schedule : list Action) (s : State) :
  run rh command schedule (initial w repos) = Some s →
  Forall (λ r, Command r = command ∧
               ∃ rp, rp ∈ repos ∧ Path r = pathJoin (tmpDir rh) (GetName rp))
         (results s).
Proof.
  intros Hrun.
  assert (Forall (holdsOwn rh command) (goroutines s)) as Hown.
  { refine (run_invariant rh command (λ s, Forall (holdsOwn rh command) (goroutines s))
              _ schedule _ s Hrun _); [|by constructor].
    clear. intros a s1 s2 Hstep Hall. destruct a as [|g|]; simpl in Hstep.
    - apply dispatch_Some in Hstep
        as (r & rest & _ & _ & _ & _ & _ & _ & [(_ & -> & _) | (_ & _ & _ & ->)]);
        [done|]. apply Forall_app. split; [done|]. by apply Forall_singleton.
    - apply advance_Some in Hstep as (gr & w' & p' & out & evs & Hg & Hc & ->).
      simpl. apply Forall_insert; [done|].
      apply (closureStep_holdsOwn _ _ _ _ _ _ _ _ Hc).
      rewrite Forall_forall in Hall. destruct gr. apply Hall.
      by eapply list_elem_of_lookup_2.
    - by injection Hstep as <-. }
  assert ((repo <$> goroutines s) ++ repoCh s `sublist_of` repos) as Hsub.
  { refine (run_invariant rh command
              (λ s, (repo <$> goroutines s) ++ repoCh s `sublist_of` repos)
              _ schedule _ s Hrun _); [|done].
    intros a sa sb Hstep Hsa. etrans; [by eapply step_dispatched | done]. }
  assert (results s ≡ₚ omap sent (goroutines s)) as Hperm.
  { refine (run_invariant rh command
              (λ s, results s ≡ₚ omap sent (goroutines s))
              (step_results rh command) schedule _ s Hrun _). done. }
  rewrite Hperm. apply Forall_forall. intros r Hr.
  apply list_elem_of_omap in Hr as (gr & Hgr & Hsent).
  rewrite Forall_forall in Hown. specialize (Hown gr Hgr).
  unfold holdsOwn, held in Hown. unfold sent in Hsent.
  destruct (phase gr); simplify_eq. destruct Hown as [Hc Hp].
  split; [done|]. exists (repo gr). split; [|done].
  apply (sublist_subseteq _ _ Hsub).
  apply elem_of_app. left. by apply list_elem_of_fmap_2.
Qed.

Lemma logged_app msg t1 t2 :
  logged msg (t1 ++ t2) = (logged msg t1 + logged msg t2)%nat.
Proof. unfold logged. by rewrite filter_app, length_app. Qed.

Lemma closureStep_logs g r p w w' p' out evs :
  closureStep rh command g r p w = Some (w', p', out, evs) →
  cloneFailed {| repo := r; phase := p |} = false ∧
  logged "error cloning repository" evs
  = (if cloneFailed {| repo := r; phase := p' |} then 1 else 0)%nat ∧
  (logged "error executing command" evs
   + (if holdsError {| repo := r; phase := p |} then 1 else 0)
   = (if holdsError {| repo := r; phase := p' |} then 1 else 0))%nat.
Proof.
  unfold closureStep, cloneFailed, holdsError, held, logged. intros H.
  destruct p; simpl in *; repeat case_match; simplify_eq; simpl.
  all: repeat split; try done.
  all: try (exfalso; by eapply is_Some_None).
  all: try (by destruct (bool_decide_reflect (is_Some (Error r0)))).
  all: try (by match goal with H : bool_decide (is_Some (Some _)) = false |- _ =>
                 rewrite bool_decide_true in H by done end).
  all: congruence.
Qed.

(** X20. The log accounts for the failures: there is one line [error
    cloning repository] for each closure that ended on a failed clone,
    and one line [error executing command] for each closure whose result
    carries an error. *)
Theorem failures_are_logged_once
  (w : World) (repos : list Repository) (schedule : list Action) (s : State) :
  run rh command schedule (initial w repos) = Some s →
  logged "error cloning repository" (trace s)
  = length (filter (λ g, cloneFailed g = true) (goroutines s)) ∧
  logged "error executing command" (trace s)
  = length (filter (λ g, holdsError g = true) (goroutines s)).
Proof.
  intros Hrun.
  refine (run_invariant rh command
            (λ s, logged "error cloning repository" (trace s)
                  = length (filter (λ g, cloneFailed g = true) (goroutines s)) ∧
                  logged "error executing command" (trace s)
                  = length (filter (λ g, holdsError g = true) (goroutines s)))
            _ schedule _ s Hrun _); [|done].
  clear. intros a s1 s2 Hstep (Hclone & Hexec).
  destruct a as [|g|]; simpl in Hstep.
  - apply dispatch_Some in Hstep
      as (r & rest & _ & _ & _ & _ & _ & _ & [(_ & -> & ->) | (_ & _ & -> & ->)]).
    + rewrite !logged_app, Hclone, Hexec. split; unfold logged; simpl; lia.
    + rewrite !filter_app, !length_app, Hclone, Hexec. split; simpl; lia.
  - apply advance_Some in Hstep as (gr & w' & p' & out & evs & Hg & Hc & ->).
    simpl. rewrite !logged_app, Hclone, Hexec.
    apply closureStep_logs in Hc as (Hold & Hc1 & Hc2).
    pose proof (filter_length_insert (λ g, cloneFailed g = true)
                  (goroutines s1) g gr {| repo := repo gr; phase := p' |} Hg) as H1.
    pose proof (filter_length_insert (λ g, holdsError g = true)
                  (goroutines s1) g gr {| repo := repo gr; phase := p' |} Hg) as H2.
    destruct gr as [r p]. simpl in *.
    destruct (decide (cloneFailed {| repo := r; phase := p |} = true))
      as [Hyes|_] in H1; [congruence|].
    split.
    + rewrite Hc1.
      destruct (decide (cloneFailed {| repo := r; phase := p' |} = true))
        as [Hyes|Hno] in H1.
      * rewrite Hyes. lia.
      * apply not_true_is_false in Hno. rewrite Hno. lia.
    + destruct (decide (holdsError {| repo := r; phase := p |} = true))
        as [Ha|Ha] in H2;
        destruct (decide (holdsError {| repo := r; phase := p' |} = true))
          as [Hb|Hb] in H2;
        try apply not_true_is_false in Ha; try apply not_true_is_false in Hb;
        rewrite Ha, Hb in Hc2; lia.
  - by injection Hstep as <-.
Qed.

Lemma progress_insert (gs : list Goroutine) (g : nat) (gr gr' : Goroutine) :
  gs !! g = Some gr →
  (progress (<[g:=gr']> gs) + phaseRank (phase gr)
   = progress gs + phaseRank (phase gr'))%nat.
Proof.
  intros Hg. unfold progress.
  rewrite insert_take_drop by (by eapply lookup_lt_Some).
  rewrite <- (take_drop_middle gs g gr Hg) at 3.
  rewrite !sum_list_with_app. simpl. lia.
Qed.

Lemma progress_bound (gs : list Goroutine) : (progress gs ≤ 4 * length gs)%nat.
Proof.
  unfold progress. induction gs as [|g gs IH]; simpl; [lia|].
  destruct (phase g); simpl; lia.
Qed.

Lemma run_progress (schedule : list Action) (s s' : State) :
  run rh command schedule s = Some s' →
  (advances schedule + progress (goroutines s) ≤ progress (goroutines s'))%nat ∧
  (dispatches schedule + length (repoCh s') = length (repoCh s))%nat ∧
  (length (goroutines s') + length (repoCh s')
   ≤ length (goroutines s) + length (repoCh s))%nat.
Proof.
  revert s. induction schedule as [|a rest IH]; intros s Hrun.
  - injection Hrun as <-. unfold advances, dispatches. simpl. lia.
  - simpl in Hrun. destruct (step rh command a s) as [s1|] eqn:Hstep; [|done].
    destruct (IH s1 Hrun) as (Ha & Hd & Hl).
    unfold advances, dispatches in *. rewrite !filter_cons.
    destruct a as [|g|]; simpl in *.
    + apply dispatch_Some in Hstep
        as (r & tl & Hch & Hch' & _ & _ & _ & _
            & [(_ & Hg & _) | (_ & _ & _ & Hg)]);
        rewrite Hch; rewrite Hch', Hg in *; simpl;
        rewrite ?length_app in *; simpl in *.
      * lia.
      * unfold progress in *. rewrite sum_list_with_app in Ha. simpl in *. lia.
    + apply advance_Some in Hstep as (gr & w' & p' & out & evs & Hg & Hc & ->).
      simpl in *. rewrite length_insert in Hl.
      pose proof (progress_insert _ g gr {| repo := repo gr; phase := p' |} Hg).
      apply closureStep_rank in Hc. simpl in *. lia.
    + injection Hstep as <-. simpl in *. lia.
Qed.

(** X21. A run is short: a closure takes at most four steps, and the
    dispatch loop one per repository, so a schedule that runs holds at
    most four closure steps and one dispatch for each discovered
    repository, and starts no more closures than there are repositories. *)
Theorem run_is_bounded
  (w : World) (repos : list Repository) (schedule : list Action) (s : State) :
  run rh command schedule (initial w repos) = Some s →
  (advances schedule ≤ 4 * length repos)%nat ∧
  (dispatches schedule ≤ length repos)%nat ∧
  (length (goroutines s) ≤ length repos)%nat.
Proof.
  intros Hrun. destruct (run_progress _ _ _ Hrun) as (Ha & Hd & Hl).
  pose proof (progress_bound (goroutines s)) as Hbound.
  change (progress (goroutines (initial w repos))) with 0%nat in Ha.
  change (length (goroutines (initial w repos))) with 0%nat in Hl.
  change (repoCh (initial w repos)) with repos in Hd, Hl.
  lia.
Qed.

Lemma closureStep_enabled g r p w :
  returned p = false → is_Some (closureStep rh command g r p w).
Proof.
  unfold closureStep. intros Hp.
  destruct p; simpl in *; repeat case_match; done.
Qed.

Lemma some_still_at_work (gs : list Goroutine) :
  ¬ Forall (λ g, returned (phase g) = true) gs →
  ∃ g gr, gs !! g = Some gr ∧ returned (phase gr) = false.
Proof.
  induction gs as [|x gs IH]; intros Hnot; [by destruct Hnot|].
  destruct (returned (phase x)) eqn:Hx; [|by exists 0%nat, x].
  destruct IH as (g & gr & Hg & Hgr).
  - intros Hall. apply Hnot. by constructor.
  - by exists (S g), gr.
Qed.

(** The closures still at work can all be brought to their return. *)
Lemma closures_can_return (n : nat) :
  ∀ s, (4 * length (goroutines s) - progress (goroutines s) ≤ n)%nat →
    ∃ schedule s',
      run rh command schedule s = Some s' ∧
      Forall (λ g, returned (phase g) = true) (goroutines s') ∧
      repoCh s' = repoCh s ∧ ctxDone s' = ctxDone s.
Proof.
  induction n as [|n IH]; intros s Hn.
  all: destruct (decide (Forall (λ g, returned (phase g) = true) (goroutines s)))
    as [Hall|Hnot]; [by exists [], s|].
  all: apply some_still_at_work in Hnot as (g & gr & Hg & Hgr);
    destruct (closureStep_enabled g (repo gr) (phase gr) (world s) Hgr)
      as ([[[w' p'] out] evs] & Hc);
    pose proof (closureStep_rank _ _ _ _ _ _ _ _ _ _ Hc) as Hrank;
    pose proof (progress_insert _ g gr {| repo := repo gr; phase := p' |} Hg)
      as Hprog; simpl in Hprog;
    pose proof (progress_bound
                  (<[g:={| repo := repo gr; phase := p' |}]> (goroutines s)))
      as Hbound; rewrite length_insert in Hbound.
  - lia.
  - destruct (IH {| world := w'; repoCh := repoCh s; ctxDone := ctxDone s;
                    groupErr := groupErr s;
                    goroutines :=
                      <[g:={| repo := repo gr; phase := p' |}]> (goroutines s);
                    results := results s ++ out; trace := trace s ++ evs |})
      as (schedule & s' & Hrun & Hall & Hch & Hctx).
    { simpl. rewrite length_insert. lia. }
    exists (Advance g :: schedule), s'. split; [|done].
    simpl. unfold advance. rewrite Hg, Hc, recordReturn_nil. exact Hrun.
Qed.

(** X22. With a limit other than zero the stage cannot get stuck: from
    every state some schedule brings it to its end, every repository
    dispatched or dropped and every closure returned. *)
Theorem stage_can_finish (s : State) :
  concurrency rh ≠ 0 →
  ∃ schedule s', run rh command schedule s = Some s' ∧ finished s'.
Proof.
  intros Hlimit.
  destruct (closures_can_return _ s (Nat.le_refl _))
    as (sched0 & s0 & Hrun0 & Hall0 & _).
  enough (∀ repos s, repoCh s = repos →
            Forall (λ g, returned (phase g) = true) (goroutines s) →
            ∃ schedule s', run rh command schedule s = Some s' ∧ finished s')
    as Hdrain.
  { destruct (Hdrain _ s0 eq_refl Hall0) as (sched1 & s1 & Hrun1 & Hfin).
    exists (sched0 ++ sched1), s1. split; [|done].
    by rewrite run_app, Hrun0. }
  clear s s0 sched0 Hrun0 Hall0.
  induction repos as [|r rest IH]; intros s Hch Hall.
  - exists [], s. by split.
  - destruct (ctxDone s) eqn:Hctx.
    + destruct (IH {| world := world s; repoCh := rest; ctxDone := ctxDone s;
                      groupErr := groupErr s; goroutines := goroutines s;
                      results := results s;
                      trace := trace s ++ [LogError "context error" "context canceled"] |})
        as (schedule & s' & Hrun & Hfin); [done | done |].
      exists (Dispatch :: schedule), s'. split; [|done].
      simpl. unfold dispatch. rewrite Hch, Hctx. rewrite Hctx in Hrun. exact Hrun.
    + assert (slotFree rh s = true) as Hfree.
      { unfold slotFree, active.
        rewrite (proj2 (length_zero_iff_nil _)).
        - destruct (concurrency rh) eqn:Hc; [done | done | done].
        - apply filter_absent_all. eapply Forall_impl; [exact Hall|].
          simpl. intros g Hg. by rewrite Hg. }
      set (s1 := {| world := world s; repoCh := rest; ctxDone := ctxDone s;
                    groupErr := groupErr s;
                    goroutines := goroutines s ++ [{| repo := r; phase := Started |}];
                    results := results s; trace := trace s |}).
      destruct (closures_can_return _ s1 (Nat.le_refl _))
        as (sched1 & s2 & Hrun1 & Hall2 & Hch2 & _).
      destruct (IH s2 Hch2 Hall2) as (sched2 & s3 & Hrun2 & Hfin).
      exists (Dispatch :: sched1 ++ sched2), s3. split; [|done].
      simpl. unfold dispatch. rewrite Hch, Hctx, Hfree.
      subst s1. rewrite Hctx in Hrun1. by rewrite run_app, Hrun1.
Qed.

End CoordinatorMore.

(** ** The older revision *)

Section LegacyFacts.
Context {lib : GoLib} {os : OS} {str : Strings}.
Variable rh : RepositoryExecutor.
Variable command : string.

(** X23. The two revisions choose the listing alike except in one case:
    without an organization and with credentials set, the older one lists
    the authenticated caller whatever the named user is, even when none is
    named, while the newer one does so only for the credentials' own
    user. *)
Theorem legacy_getRepositories_differs_on_credentials :
  (org rh = None → is_Some (authUser rh) → is_Some (authToken rh) →
   Legacy.getRepositories rh = inr ForAuthenticatedUser) ∧
  (Legacy.getRepositories rh = getRepositories rh ∨
   org rh = None ∧ is_Some (authUser rh) ∧ is_Some (authToken rh) ∧
   user rh ≠ authUser rh).
Proof.
  unfold Legacy.getRepositories, getRepositories. split.
  - by intros -> [a ->] [t ->].
  - destruct (org rh) as [o|]; [by left|].
    destruct (authUser rh) as [a|]; [|by left].
    destruct (authToken rh) as [t|]; [|by left].
    destruct (user rh) as [u|]; [|right; by repeat split].
    case_bool_decide as Hau; [by left|].
    right. repeat split; try done. congruence.
Qed.

(** X24. The older [execCommand] runs no shell: the first field of the
    command is the program and the other fields are its arguments, on
    either side of its test of the command's length, as long as a command
    of one byte has at most one field; and a command without fields
    panics. *)
Theorem legacy_execCommand_runs_fields (w : World) (dir : string) :
  ((String.length command ≤ 1)%nat → (length (Fields command) ≤ 1)%nat) →
  (Fields command = [] → Legacy.execCommand w command dir = None) ∧
  (∀ name args, Fields command = name :: args →
     Legacy.execCommand w command dir = Some (CommandRun w name args dir)).
Proof.
  intros Hfields. unfold Legacy.execCommand. split.
  - by intros ->.
  - intros name args Hf. rewrite Hf.
    destruct (1 <? String.length command)%nat eqn:Hlen; [done|].
    apply Nat.ltb_ge in Hlen. specialize (Hfields Hlen).
    rewrite Hf in Hfields. simpl in Hfields.
    destruct args; [done | simpl in Hfields; lia].
Qed.

Lemma legacy_run_invariant (I : State → Prop) :
  (∀ a s s', Legacy.step rh command a s = Some s' → I s → I s') →
  ∀ schedule s s', Legacy.run rh command schedule s = Some s' → I s → I s'.
Proof.
  intros Hstep schedule. induction schedule as [|a rest IH]; intros s s' Hrun Hs.
  - by injection Hrun as <-.
  - simpl in Hrun. destruct (Legacy.step rh command a s) as [s1|] eqn:Ha; [|done].
    eapply IH; [done|]. by eapply Hstep.
Qed.

Lemma legacy_advance_Some g s s' :
  Legacy.advance rh command g s = Some s' →
  ∃ gr w' p' out evs,
    goroutines s !! g = Some gr ∧
    Legacy.closureStep rh command g (repo gr) (phase gr) (world s)
      = Some (w', p', out, evs) ∧
    s' = {| world := w'; repoCh := repoCh s; ctxDone := ctxDone s;
            groupErr := Legacy.recordReturn p' (groupErr s);
            goroutines := <[g := {| repo := repo gr; phase := p' |}]> (goroutines s);
            results := results s ++ out; trace := trace s ++ evs |}.
Proof.
  unfold Legacy.advance. intros H.
  destruct (goroutines s !! g) as [gr|] eqn:Hg; [|done].
  destruct (Legacy.closureStep rh command g (repo gr) (phase gr) (world s))
    as [[[[w' p'] out] evs]|] eqn:Hc; [|done].
  injection H as <-. by exists gr, w', p', out, evs.
Qed.

Lemma legacy_closureStep_cloneFailed g r p w w' p' out evs :
  Legacy.closureStep rh command g r p w = Some (w', p', out, evs) →
  cloneFailed {| repo := r; phase := p |} = false ∧
  out = option_list (sent {| repo := r; phase := p' |}) ∧
  sent {| repo := r; phase := p |} = None.
Proof.
  unfold Legacy.closureStep, cloneFailed, sent. intros H.
  destruct p; simpl in *; repeat case_match; by simplify_eq.
Qed.

Lemma legacy_step_failsWithClone a s s' :
  Legacy.step rh command a s = Some s' → failsWithClone s → failsWithClone s'.
Proof.
  destruct a as [|g|]; simpl; intros H (Hiff & Hsome).
  - unfold Legacy.dispatch in H. destruct (repoCh s) as [|r rest]; [done|].
    destruct (slotFree rh s); [|done]. injection H as <-. split; simpl.
    + rewrite Hiff, Forall_app, Forall_singleton.
      split; [intros Hall; by split | by intros [Hall _]].
    + intros e He. destruct (Hsome e He) as (g & r' & Hg).
      exists g, r'. by apply lookup_app_l_Some.
  - apply legacy_advance_Some in H as (gr & w' & p' & out & evs & Hg & Hc & ->).
    apply legacy_closureStep_cloneFailed in Hc as (Hold & _ & _).
    pose proof (lookup_lt_Some _ _ _ Hg) as Hlt.
    split; simpl.
    + unfold Legacy.recordReturn, Legacy.closureReturn.
      destruct (groupErr s) as [e0|] eqn:He0.
      * split; [done|]. intros Hall.
        assert (Forall (λ g, cloneFailed g = false) (goroutines s)) as Hall0.
        { apply Forall_forall. intros x Hx.
          apply list_elem_of_lookup in Hx as (i & Hi).
          destruct (decide (i = g)) as [->|Hne]; [by simplify_eq|].
          rewrite Forall_forall in Hall. apply Hall.
          apply list_elem_of_lookup. exists i.
          by rewrite list_lookup_insert_ne. }
        by apply Hiff in Hall0.
      * apply proj1 in Hiff. specialize (Hiff eq_refl).
        destruct p'; simpl; (split; [intros Hn | intros Hall]); try done.
        all: try (apply Forall_insert; done).
        rewrite Forall_forall in Hall.
        assert ({| repo := repo gr; phase := CloneFailed err |}
                ∈ <[g:={| repo := repo gr; phase := CloneFailed err |}]> (goroutines s))
          as Hin by (apply list_elem_of_lookup; exists g;
                     by rewrite list_lookup_insert_eq).
        by apply Hall in Hin.
    + intros e He. unfold Legacy.recordReturn, Legacy.closureReturn in He.
      destruct (groupErr s) as [e0|] eqn:He0.
      * injection He as <-. destruct (Hsome e0 eq_refl) as (i & r & Hi).
        exists i, r. rewrite list_lookup_insert_ne; [done|].
        intros ->. rewrite Hg in Hi. injection Hi as ->. done.
      * destruct p'; simplify_eq. exists g, (repo gr).
        by rewrite list_lookup_insert_eq.
  - by injection H as <-.
Qed.

(** X25. In the older revision a failed clone fails the run: the closure
    returns the clone error to its group, which keeps the first error it
    gets, so what [repoG.Wait()] returns is nil exactly as long as no
    clone has failed and otherwise the error of a clone that failed. No
    result is sent for that repository either. *)
Theorem legacy_clone_failure_fails_the_run
  (w : World) (repos : list Repository) (schedule : list Action) (s : State) :
  Legacy.run rh command schedule (initial w repos) = Some s →
  (groupErr s = None ↔ Forall (λ g, cloneFailed g = false) (goroutines s)) ∧
  (∀ e, groupErr s = Some e →
        ∃ g r, goroutines s !! g = Some {| repo := r; phase := CloneFailed e |}) ∧
  (∀ g gr w' e,
     goroutines s !! g = Some gr → phase gr = Cloning →
     PlainCloneContext (world s) (pathJoin (tmpDir rh) (GetName (repo gr)))
       (GetCloneURL (repo gr)) (cloneAuth rh) = (w', Some e) →
     ∃ s1, Legacy.advance rh command g s = Some s1 ∧
           groupErr s1 = Some (default e (groupErr s)) ∧
           results s1 = results s).
Proof.
  intros Hrun.
  assert (failsWithClone s) as (Hiff & Hsome).
  { refine (legacy_run_invariant failsWithClone legacy_step_failsWithClone
              schedule _ s Hrun _).
    split; [done|]. intros e He. done. }
  split; [done|]. split; [done|].
  intros g gr w' e Hg Hp Hclone. unfold Legacy.advance.
  rewrite Hg, Hp. simpl. unfold cloneRepo. rewrite Hclone.
  eexists. split; [reflexivity|]. simpl. rewrite app_nil_r.
  split; [|done]. by destruct (groupErr s).
Qed.

End LegacyFacts.

Section LegacyLimit.
Context {lib : GoLib} {os : OS} {str : Strings}.

Lemma applyOptions_keeps_limit (opts : list RepositoryExecutorOption)
  (exec : RepositoryExecutor) :
  Forall (λ opt, ∀ e, concurrency (opt e).1 = concurrency e) opts →
  concurrency (applyOptions opts exec).1 = concurrency exec.
Proof.
  revert exec. induction opts as [|opt opts IH]; intros exec Hkeep; [done|].
  apply Forall_cons in Hkeep as [Hopt Hkeep]. simpl.
  specialize (Hopt exec). destruct (opt exec) as [exec' [err|]]; [done|].
  simpl in Hopt. by rewrite IH, Hopt.
Qed.

(** X26. A limit that no option sets is the builder's: one repository at
    a time in the newer revision, but zero in the older one, whose
    builder sets none; and with a limit of zero the older stage starts no
    closure, so the run never gets anywhere. *)
Theorem legacy_default_limit_starts_nothing
  (command wd : string) (opts : list RepositoryExecutorOption) :
  Forall (λ opt, ∀ e, concurrency (opt e).1 = concurrency e) opts →
  (∀ exec, NewRepositoryExecutor (inr wd) opts = (Some exec, None) →
           concurrency exec = 1) ∧
  (∀ exec, Legacy.NewRepositoryExecutor (inr wd) opts = (Some exec, None) →
     concurrency exec = 0 ∧
     ∀ w repos schedule s,
       Legacy.run exec command schedule (initial w repos) = Some s →
       goroutines s = [] ∧ results s = [] ∧ repoCh s = repos).
Proof.
  intros Hkeep. split.
  - intros exec Hnew. unfold NewRepositoryExecutor in Hnew.
    pose proof (applyOptions_keeps_limit opts (defaultExecutor wd) Hkeep) as Hlimit.
    destruct (applyOptions opts (defaultExecutor wd)) as [exec' [err|]];
      [done|]. by injection Hnew as <-.
  - intros exec Hnew. unfold Legacy.NewRepositoryExecutor in Hnew.
    pose proof (applyOptions_keeps_limit opts (Legacy.defaultExecutor wd) Hkeep)
      as Hzero.
    destruct (applyOptions opts (Legacy.defaultExecutor wd)) as [exec' [err|]];
      [done|]. injection Hnew as <-. simpl in Hzero.
    split; [exact Hzero|]. intros w repos schedule s Hrun.
    refine (legacy_run_invariant exec' command
              (λ s, goroutines s = [] ∧ results s = [] ∧ repoCh s = repos)
              _ schedule _ s Hrun _); [|done].
    clear Hrun. intros a s1 s2 Hstep (Hg & Hr & Hq).
    destruct a as [|g|]; simpl in Hstep.
    + unfold Legacy.dispatch in Hstep. destruct (repoCh s1); [done|].
      unfold slotFree, active in Hstep. by rewrite Hzero, Hg in Hstep.
    + unfold Legacy.advance in Hstep. by rewrite Hg in Hstep.
    + by injection Hstep as <-.
Qed.

End LegacyLimit.

(** ** The further properties on the fixture *)

Lemma matchRepo_reads_name_and_topic_set_witness :
  matchRepo Sample.goInAcme (Fixture.repoNamed "svc-a" ["backend"; "go"; "go"])
  = matchRepo Sample.goInAcme Fixture.svcA.
Proof.
  destruct (matchRepo_reads_name_and_topic_set Sample.goInAcme
              (Fixture.repoNamed "svc-a" ["backend"; "go"; "go"]) Fixture.svcA
              eq_refl) as [_ Hset].
  apply Hset. intros topic. simpl.
  rewrite !elem_of_cons, elem_of_nil. tauto.
Defined.

Lemma RunWithArgs_passes_arguments_witness :
  ∃ handler,
    RunWithArgs Sample.env Sample.args = inr (handler, "pwd") ∧
    concurrency handler = 4 ∧ tmpDir handler = "/work/tmp" ∧
    shellPath handler = "/bin/bash" ∧ cleanup handler = true ∧
    outputFormat handler = JsonOutputFormat.
Proof.
  eassert (RunWithArgs Sample.env Sample.args = inr (_, _)) as Hrun
    by (vm_compute; reflexivity).
  eexists. split; [exact Hrun|].
  destruct (RunWithArgs_passes_arguments Sample.env Sample.args _ _ Hrun)
    as (_ & _ & Hn & Hdir & Hsh & Hcl & _ & _ & _ & Hfmt).
  split; [exact Hn|]. split; [exact Hdir|]. split; [exact Hsh|].
  split; [exact Hcl | exact Hfmt].
Defined.

Lemma RunWithArgs_half_credentials_witness :
  ∃ handler,
    RunWithArgs Sample.env Sample.args = inr (handler, "pwd") ∧
    client handler = {| clientToken := Some "ghp_token" |} ∧
    cloneAuth handler = None ∧
    getRepositories handler ≠ inr ForAuthenticatedUser.
Proof.
  eassert (RunWithArgs Sample.env Sample.args = inr (_, _)) as Hrun
    by (vm_compute; reflexivity).
  eexists. split; [exact Hrun|].
  exact (RunWithArgs_half_credentials Sample.env Sample.args _ _
           (or_introl eq_refl) Hrun).
Defined.

Lemma RunWithArgs_org_wins_witness :
  ∃ handler,
    RunWithArgs Sample.env Sample.args = inr (handler, "pwd") ∧
    getRepositories handler = inr (ForOrg "acme").
Proof.
  eassert (RunWithArgs Sample.env Sample.args = inr (_, _)) as Hrun
    by (vm_compute; reflexivity).
  eexists. split; [exact Hrun|].
  exact (RunWithArgs_org_wins Sample.env Sample.args "acme" _ _ eq_refl Hrun).
Defined.

Lemma RunWithArgs_list_files_witness :
  ∃ handler bytes,
    RunWithArgs Sample.env Sample.args = inr (handler, "pwd") ∧
    ReadFile Sample.env "names.txt" = inr bytes ∧
    ∀ r, matchRepo handler r = true → GetName r ∈ splitLines bytes.
Proof.
  eassert (RunWithArgs Sample.env Sample.args = inr (_, _)) as Hrun
    by (vm_compute; reflexivity).
  eexists.
  destruct (RunWithArgs_list_files Sample.env Sample.args _ _ Hrun)
    as [Hnames _].
  destruct (Hnames "names.txt" eq_refl) as (bytes & Hread & Hin).
  exists bytes. split; [exact Hrun|]. split; [exact Hread | exact Hin].
Defined.

Lemma RunWithArgs_checks_command_last_witness :
  RunWithArgs Sample.env (withCommand "" Sample.args)
  = inl "no command provided".
Proof.
  assert ("pwd" ≠ "") as Hcmd by discriminate.
  pose proof (RunWithArgs_checks_command_last Sample.env Sample.args "pwd" Hcmd)
    as Hlast.
  eassert (RunWithArgs Sample.env (withCommand "pwd" Sample.args) = inr (_, _))
    as Hrun by (vm_compute; reflexivity).
  rewrite Hrun in Hlast. exact (proj2 Hlast).
Defined.

Lemma discover_sends_only_matches_witness :
  ∃ out,
    discover Sample.goInAcme 3 Sample.live = Some (Sample.live, out, None) ∧
    Forall (λ r, matchRepo Sample.goInAcme r = true) out.
Proof.
  eassert (discover Sample.goInAcme 3 Sample.live = Some (_, _, _)) as Hrun
    by (vm_compute; reflexivity).
  eexists. split; [exact Hrun|].
  exact (discover_sends_only_matches Sample.goInAcme 3 Sample.live _ _ _ Hrun).
Defined.

Lemma listPages_sends_every_match_witness :
  getRepositoriesForOrg Sample.goInAcme 2 Sample.live "acme"
  = Some (Sample.live,
          filter (λ r, matchRepo Sample.goInAcme r = true)
                 [Fixture.svcA; Fixture.svcB; Fixture.svcC],
          None).
Proof.
  apply (listPages_sends_every_match Sample.goInAcme
           (λ r opt, ListByOrg r "acme" opt) Sample.acmePages Sample.live 2).
  - intros remote opt. reflexivity.
  - reflexivity.
  - lia.
  - simpl. lia.
Defined.

Lemma String_lines_witness :
  splitLines
    (String_ {| Path := "/work/tmp/svc-a"; Command := "false"; Stdout := "";
                Stderr := "boom"; Error := Some "exit status 1" |})
  = [">>>>> /work/tmp/svc-a: false"; "STDERR:"; "boom"; "STDOUT:"; "";
     "error: exit status 1"; ""].
Proof.
  exact (String_lines
           {| Path := "/work/tmp/svc-a"; Command := "false"; Stdout := "";
              Stderr := "boom"; Error := Some "exit status 1" |}
           eq_refl eq_refl eq_refl eq_refl eq_refl).
Defined.

Lemma zero_limit_starts_nothing_witness :
  ∃ s,
    run (set_concurrency 0 Fixture.plain) "pwd" [Cancel]
      (initial Fixture.warm [Fixture.svcA; Fixture.svcB]) = Some s ∧
    goroutines s = [] ∧ results s = [] ∧ world s = Fixture.warm.
Proof.
  eassert (run (set_concurrency 0 Fixture.plain) "pwd" [Cancel]
             (initial Fixture.warm [Fixture.svcA; Fixture.svcB]) = Some _)
    as Hrun by (vm_compute; reflexivity).
  eexists. split; [exact Hrun|].
  destruct (zero_limit_starts_nothing (set_concurrency 0 Fixture.plain) "pwd"
              Fixture.warm [Fixture.svcA; Fixture.svcB] [Cancel] _
              eq_refl Hrun) as (Hgs & Hres & Hw & _).
  split; [exact Hgs|]. split; [exact Hres | exact Hw].
Defined.

Lemma limit_one_keeps_order_witness :
  ∃ s,
    run Fixture.plain "pwd"
      [Dispatch; Advance 0; Advance 0; Advance 0; Dispatch; Advance 1]
      (initial Fixture.warm [Fixture.svcA; Fixture.svcC]) = Some s ∧
    results s = omap sent (goroutines s) ∧
    ∀ gr, goroutines s !! 0%nat = Some gr → returned (phase gr) = true.
Proof.
  eassert (run Fixture.plain "pwd"
             [Dispatch; Advance 0; Advance 0; Advance 0; Dispatch; Advance 1]
             (initial Fixture.warm [Fixture.svcA; Fixture.svcC]) = Some _)
    as Hrun by (vm_compute; reflexivity).
  eexists. split; [exact Hrun|].
  destruct (limit_one_keeps_order Fixture.plain "pwd" Fixture.warm
              [Fixture.svcA; Fixture.svcC]
              [Dispatch; Advance 0; Advance 0; Advance 0; Dispatch; Advance 1]
              _ eq_refl Hrun) as [Hres Hone].
  split; [exact Hres|].
  intros gr Hgr. apply (Hone 0%nat gr Hgr). simpl. lia.
Defined.


Lemma results_name_command_and_directory_witness :
  ∃ s,
    run Fixture.plain "pwd"
      [Dispatch; Advance 0; Advance 0; Advance 0]
      (initial Fixture.warm [Fixture.svcA; Fixture.svcC]) = Some s ∧
    Forall (λ r, Command r = "pwd" ∧
                 ∃ rp, rp ∈ [Fixture.svcA; Fixture.svcC] ∧
                       Path r = pathJoin (tmpDir Fixture.plain) (GetName rp))
           (results s).
Proof.
  eassert (run Fixture.plain "pwd"
             [Dispatch; Advance 0; Advance 0; Advance 0]
             (initial Fixture.warm [Fixture.svcA; Fixture.svcC]) = Some _)
    as Hrun by (vm_compute; reflexivity).
  eexists. split; [exact Hrun|].
  exact (results_name_command_and_directory Fixture.plain "pwd" Fixture.warm
           [Fixture.svcA; Fixture.svcC]
           [Dispatch; Advance 0; Advance 0; Advance 0] _ Hrun).
Defined.

Lemma failures_are_logged_once_witness :
  ∃ s,
    run Fixture.plain "false"
      [Dispatch; Advance 0; Advance 0; Advance 0;
       Dispatch; Advance 1; Advance 1]
      (initial Fixture.warm [Fixture.svcA; Fixture.svcB]) = Some s ∧
    logged "error cloning repository" (trace s)
    = length (filter (λ g, cloneFailed g = true) (goroutines s)) ∧
    logged "error executing command" (trace s)
    = length (filter (λ g, holdsError g = true) (goroutines s)).
Proof.
  eassert (run Fixture.plain "false"
             [Dispatch; Advance 0; Advance 0; Advance 0;
              Dispatch; Advance 1; Advance 1]
             (initial Fixture.warm [Fixture.svcA; Fixture.svcB]) = Some _)
    as Hrun by (vm_compute; reflexivity).
  eexists. split; [exact Hrun|].
  exact (failures_are_logged_once Fixture.plain "false" Fixture.warm
           [Fixture.svcA; Fixture.svcB]
           [Dispatch; Advance 0; Advance 0; Advance 0;
            Dispatch; Advance 1; Advance 1] _ Hrun).
Defined.

Lemma run_is_bounded_witness :
  ∃ s,
    run Fixture.plain "pwd"
      [Dispatch; Advance 0; Advance 0; Advance 0; Dispatch; Advance 1]
      (initial Fixture.warm [Fixture.svcA; Fixture.svcC]) = Some s ∧
    (length (goroutines s) ≤ 2)%nat.
Proof.
  eassert (run Fixture.plain "pwd"
             [Dispatch; Advance 0; Advance 0; Advance 0; Dispatch; Advance 1]
             (initial Fixture.warm [Fixture.svcA; Fixture.svcC]) = Some _)
    as Hrun by (vm_compute; reflexivity).
  eexists. split; [exact Hrun|].
  exact (proj2 (proj2 (run_is_bounded Fixture.plain "pwd" Fixture.warm
                         [Fixture.svcA; Fixture.svcC]
                         [Dispatch; Advance 0; Advance 0; Advance 0;
                          Dispatch; Advance 1] _ Hrun))).
Defined.

Lemma stage_can_finish_witness :
  ∃ schedule s',
    run Fixture.plain "pwd" schedule
      (initial Fixture.fresh [Fixture.svcB; Fixture.svcA]) = Some s' ∧
    finished s'.
Proof.
  assert (concurrency Fixture.plain ≠ 0) as Hlimit by discriminate.
  exact (stage_can_finish Fixture.plain "pwd"
           (initial Fixture.fresh [Fixture.svcB; Fixture.svcA]) Hlimit).
Defined.

Lemma legacy_execCommand_runs_fields_witness :
  Legacy.execCommand Fixture.warm "git  status -s" "/work/tmp/svc-a"
  = Some (CommandRun Fixture.warm "git" ["status"; "-s"] "/work/tmp/svc-a").
Proof.
  assert ((String.length "git  status -s" ≤ 1)%nat →
          (length (Fields "git  status -s") ≤ 1)%nat) as Hone
    by (simpl; lia).
  destruct (legacy_execCommand_runs_fields "git  status -s" Fixture.warm
              "/work/tmp/svc-a" Hone) as [_ Hrun].
  exact (Hrun "git" ["status"; "-s"] eq_refl).
Defined.

Lemma legacy_clone_failure_fails_the_run_witness :
  ∃ s,
    Legacy.run Fixture.plain "pwd" [Dispatch; Advance 0; Advance 0]
      (initial Fixture.fresh [Fixture.svcB; Fixture.svcA]) = Some s ∧
    groupErr s = Some "repository not found" ∧
    ∃ g r, goroutines s !! g
           = Some {| repo := r; phase := CloneFailed "repository not found" |}.
Proof.
  eassert (Legacy.run Fixture.plain "pwd" [Dispatch; Advance 0; Advance 0]
             (initial Fixture.fresh [Fixture.svcB; Fixture.svcA]) = Some _)
    as Hrun by (vm_compute; reflexivity).
  eexists. split; [exact Hrun|]. split; [reflexivity|].
  destruct (legacy_clone_failure_fails_the_run Fixture.plain "pwd"
              Fixture.fresh [Fixture.svcB; Fixture.svcA]
              [Dispatch; Advance 0; Advance 0] _ Hrun) as (_ & Hsome & _).
  exact (Hsome "repository not found" eq_refl).
Defined.

Lemma legacy_default_limit_starts_nothing_witness :
  ∃ exec,
    Legacy.NewRepositoryExecutor (inr "/work") [WithOrg "acme"; WithCleanup true]
    = (Some exec, None) ∧
    concurrency exec = 0 ∧
    Legacy.dispatch exec (initial Fixture.warm [Fixture.svcA]) = None.
Proof.
  assert (Forall (λ opt : RepositoryExecutorOption,
                    ∀ e, concurrency (opt e).1 = concurrency e)
            [WithOrg "acme"; WithCleanup true]) as Hkeep
    by (repeat constructor).
  eexists. split; [reflexivity|].
  destruct (legacy_default_limit_starts_nothing "pwd" "/work"
              [WithOrg "acme"; WithCleanup true] Hkeep) as [_ Hold].
  destruct (Hold _ eq_refl) as [Hzero _].
  split; [exact Hzero | reflexivity].
Defined.
